(** * world_explorer_game: the terrain generator of [backend/src/app.py]

    A shallow embedding of the noise generator ([lerp], [fade], [gradient],
    [generate_perlin_noise]) and of the classification loop of
    [generate_world], together with the properties stated about them.

    Conventions of the embedding.
    - Python [int] is [Z].  Python [float] (and the float64 cells of the
      numpy array) is [Q]: arithmetic is exact, so rounding, infinities and
      NaN are outside this model.  The literals [0.4], [0.7], [0.5], [0.01],
      [2.0], [30.0] are the rationals they denote.
    - Where the range of float64 decides a property, the property carries
      the condition as a hypothesis ([powers_in_range], [spread_in_range],
      [amplitudes_in_range], [samples_in_range]); [Float64] evaluates the
      normalisation, [lerp] and [fade] in binary64, where the program can
      leave that range or where rounding changes what holds.
    - A call either returns a value, raises a Python exception, or (for the
      rejection loop of [random.randint] only) exhausts its iteration budget.
    - The module-level generator of Python's [random] is a piece of state
      threaded through every call: a computation is a function from the
      generator state to an outcome and the generator state it leaves behind.
    - [random] itself is not code of this repository.  It is an interface
      ([PRNG]); the instance [MT19937] follows CPython's [_randommodule.c]
      and [Lib/random.py]. *)

From Stdlib Require Import ZArith QArith Qround Qminmax Qpower Qfield Qabs Lia Lqa List.
From Stdlib Require Floats.
From stdpp Require Import base list.
Import ListNotations.

Local Open Scope Z_scope.

(** ** Outcomes of a Python call *)

Inductive exn : Type :=
| ValueError
| ZeroDivisionError
| IndexError.

Inductive result (A : Type) : Type :=
| Ok (a : A)
| Raise (e : exn)
| Timeout.

Arguments Ok {A} a.
Arguments Raise {A} e.
Arguments Timeout {A}.

(** ** The interface of Python's [random] module used by the program *)

Class PRNG (G : Type) : Type := {
  (** [random.seed(a)] for an [int] argument: the state it installs. *)
  rng_seed : Z -> G;
  (** [random.randint(a, b)]: the outcome and the state left behind. *)
  rng_randint : Z -> Z -> G -> result Z * G
}.

(** The documented contract of [random.randint(a, b)]: a returned [N] has
    [a <= N <= b]. *)
Class PRNGLaws (G : Type) `{PRNG G} : Prop := {
  rng_randint_range :
    forall a b g k g', rng_randint a b g = (Ok k, g') -> a <= k <= b
}.

(** ** CPython's generator: MT19937 seeded by [init_by_array] *)

Module MT19937.

Definition N : Z := 624.
Definition M : Z := 397.
Definition MATRIX_A : Z := 0x9908b0df.
Definition UPPER_MASK : Z := 0x80000000.
Definition LOWER_MASK : Z := 0x7fffffff.

(** Truncation to [uint32_t]. *)
Definition u32 (z : Z) : Z := Z.land z 0xffffffff.

(** [RandomObject]: the word array and the position in it. *)
Record state : Type := mkState { mt : list Z; index : Z }.

Definition get (a : list Z) (i : Z) : Z := nth (Z.to_nat i) a 0.
Definition set (a : list Z) (i : Z) (v : Z) : list Z :=
  <[Z.to_nat i := v]> a.

(** [init_genrand(self, s)] *)
Fixpoint init_genrand_loop (n : nat) (mti : Z) (prev : Z) : list Z :=
  match n with
  | O => []
  | S n' =>
      let v := u32 (1812433253 * Z.lxor prev (Z.shiftr prev 30) + mti) in
      v :: init_genrand_loop n' (mti + 1) v
  end.

Definition init_genrand (s : Z) : state :=
  let s0 := u32 s in
  mkState (s0 :: init_genrand_loop (Z.to_nat (N - 1)) 1 s0) N.

(** The two loops of [init_by_array(self, init_key, key_length)]; each
    iteration is one body of the C [for]. *)
Fixpoint init_by_array_loop1 (k : nat) (key : list Z) (key_length : Z)
    (a : list Z) (i j : Z) : list Z * Z :=
  match k with
  | O => (a, i)
  | S k' =>
      let p := get a (i - 1) in
      let v := u32 (Z.lxor (get a i) (u32 (Z.lxor p (Z.shiftr p 30) * 1664525))
                    + get key j + u32 j) in
      let a := set a i v in
      let i := i + 1 in
      let j := j + 1 in
      let '(a, i) := if N <=? i then (set a 0 (get a (N - 1)), 1) else (a, i) in
      let j := if key_length <=? j then 0 else j in
      init_by_array_loop1 k' key key_length a i j
  end.

Fixpoint init_by_array_loop2 (k : nat) (a : list Z) (i : Z) : list Z :=
  match k with
  | O => a
  | S k' =>
      let p := get a (i - 1) in
      let v := u32 (Z.lxor (get a i) (u32 (Z.lxor p (Z.shiftr p 30) * 1566083941))
                    - u32 i) in
      let a := set a i v in
      let i := i + 1 in
      let '(a, i) := if N <=? i then (set a 0 (get a (N - 1)), 1) else (a, i) in
      init_by_array_loop2 k' a i
  end.

Definition init_by_array (init_key : list Z) : state :=
  let key_length := Z.of_nat (length init_key) in
  let s := init_genrand 19650218 in
  let k := if key_length <? N then N else key_length in
  let '(a, i) := init_by_array_loop1 (Z.to_nat k) init_key key_length (mt s) 1 0 in
  let a := init_by_array_loop2 (Z.to_nat (N - 1)) a i in
  mkState (set a 0 0x80000000) (index s).

(** [random_seed] for an [int]: the absolute value, cut into 32-bit words,
    least significant first; one word when the value is zero. *)
Fixpoint key_words (n : nat) (z : Z) : list Z :=
  match n with
  | O => []
  | S n' => u32 z :: key_words n' (Z.shiftr z 32)
  end.

Definition seed_key (a : Z) : list Z :=
  let n := Z.abs a in
  let bits := Z.log2 n + 1 in
  let keyused := if n =? 0 then 1 else (bits - 1) / 32 + 1 in
  key_words (Z.to_nat keyused) n.

Definition seed (a : Z) : state := init_by_array (seed_key a).

(** The regeneration of all [N] words in [genrand_uint32]. *)
Definition mag01 (y : Z) : Z := if Z.testbit y 0 then MATRIX_A else 0.

Definition twist_word (a : list Z) (kk next from : Z) : list Z :=
  let y := Z.lor (Z.land (get a kk) UPPER_MASK) (Z.land (get a next) LOWER_MASK) in
  set a kk (Z.lxor (Z.lxor (get a from) (Z.shiftr y 1)) (mag01 y)).

Fixpoint twist_loop (n : nat) (kk : Z) (off : Z) (a : list Z) : list Z :=
  match n with
  | O => a
  | S n' => twist_loop n' (kk + 1) off (twist_word a kk (kk + 1) (kk + off))
  end.

Definition twist (a : list Z) : list Z :=
  let a := twist_loop (Z.to_nat (N - M)) 0 M a in
  let a := twist_loop (Z.to_nat (M - 1)) (N - M) (M - N) a in
  twist_word a (N - 1) 0 (M - 1).

Definition temper (y : Z) : Z :=
  let y := Z.lxor y (Z.shiftr y 11) in
  let y := Z.lxor y (Z.land (u32 (Z.shiftl y 7)) 0x9d2c5680) in
  let y := Z.lxor y (Z.land (u32 (Z.shiftl y 15)) 0xefc60000) in
  Z.lxor y (Z.shiftr y 18).

Definition genrand_uint32 (s : state) : Z * state :=
  let s := if N <=? index s then mkState (twist (mt s)) 0 else s in
  (u32 (temper (get (mt s) (index s))), mkState (mt s) (index s + 1)).

(** [getrandbits(k)]: one word when [k <= 32], else [(k-1)/32+1] words
    filled from the least significant one. *)
Fixpoint getrandbits_words (words : nat) (k : Z) (s : state) : Z * state :=
  match words with
  | O => (0, s)
  | S w' =>
      let '(r, s) := genrand_uint32 s in
      let r := if k <? 32 then Z.shiftr r (32 - k) else r in
      let '(hi, s) := getrandbits_words w' (k - 32) s in
      (r + Z.shiftl hi 32, s)
  end.

Definition getrandbits (k : Z) (s : state) : result Z * state :=
  if k <? 0 then (Raise ValueError, s)
  else if k =? 0 then (Ok 0, s)
  else if k <=? 32 then
    let '(r, s) := genrand_uint32 s in (Ok (Z.shiftr r (32 - k)), s)
  else
    let '(r, s) := getrandbits_words (Z.to_nat ((k - 1) / 32 + 1)) k s in
    (Ok r, s).

(** [n.bit_length()] for [n > 0]. *)
Definition bit_length (n : Z) : Z := Z.log2 n + 1.

(** [_randbelow_with_getrandbits(n)]: draw [k] bits until the draw is
    below [n].  The [while] loop is cut after [fuel] draws. *)
Fixpoint randbelow_loop (fuel : nat) (n k : Z) (s : state) : result Z * state :=
  match fuel with
  | O => (Timeout, s)
  | S fuel' =>
      match getrandbits k s with
      | (Ok r, s') => if r <? n then (Ok r, s') else randbelow_loop fuel' n k s'
      | (Raise e, s') => (Raise e, s')
      | (Timeout, s') => (Timeout, s')
      end
  end.

Definition randbelow_fuel : nat := Z.to_nat 4096.

Definition randbelow (n : Z) (s : state) : result Z * state :=
  randbelow_loop randbelow_fuel n (bit_length n) s.

(** [randint(a, b)] is [randrange(a, b+1)]. *)
Definition randrange (start stop : Z) (s : state) : result Z * state :=
  let width := stop - start in
  if 0 <? width then
    match randbelow width s with
    | (Ok r, s') => (Ok (start + r), s')
    | other => other
    end
  else (Raise ValueError, s).

Definition randint (a b : Z) (s : state) : result Z * state :=
  randrange a (b + 1) s.

End MT19937.

#[global] Instance MT19937_PRNG : PRNG MT19937.state := {
  rng_seed := MT19937.seed;
  rng_randint := MT19937.randint
}.


(** ** Computations over the shared generator *)

(** A computation reads the generator state and returns an outcome together
    with the generator state it leaves; an exception keeps the state reached
    when it was raised. *)
Definition Py (G A : Type) : Type := G -> result A * G.

Definition ret {G A} (a : A) : Py G A := fun g => (Ok a, g).

Definition lift {G A} (r : result A) : Py G A := fun g => (r, g).

Definition bind {G A B} (m : Py G A) (f : A -> Py G B) : Py G B :=
  fun g =>
    match m g with
    | (Ok a, g') => f a g'
    | (Raise e, g') => (Raise e, g')
    | (Timeout, g') => (Timeout, g')
    end.

Notation "x <- m ;; k" := (bind m (fun x => k))
  (at level 100, m at next level, right associativity).

(** A [for] loop that threads the variables it assigns. *)
Fixpoint foldM {G A B} (f : B -> A -> Py G B) (b : B) (l : list A) : Py G B :=
  match l with
  | [] => ret b
  | a :: l' => b' <- f b a ;; foldM f b' l'
  end.

(** ** Python and numpy primitives used by the program *)

(** [range(n)] *)
Definition range (n : Z) : list Z := seqZ 0 n.

(** Subscript normalisation: a negative index counts from the end, an index
    outside [-len, len) raises [IndexError]. *)
Definition norm_index (len : nat) (i : Z) : result nat :=
  let n := Z.of_nat len in
  let j := if i <? 0 then i + n else i in
  if (0 <=? j) && (j <? n) then Ok (Z.to_nat j) else Raise IndexError.

(** [l[i]] *)
Definition py_index {A} (l : list A) (i : Z) : result A :=
  match norm_index (length l) i with
  | Ok j => match l !! j with Some a => Ok a | None => Raise IndexError end
  | Raise e => Raise e
  | Timeout => Timeout
  end.

(** [a / b] on floats *)
Definition py_div (a b : Q) : result Q :=
  if Qeq_bool b 0 then Raise ZeroDivisionError else Ok (a / b)%Q.

(** The float64 array [noise_map], as its rows. *)
Abbreviation ndarray := (list (list Q)).

(** [np.zeros((height, width))] *)
Definition np_zeros (height width : Z) : result ndarray :=
  if (height <? 0) || (width <? 0) then Raise ValueError
  else Ok (replicate (Z.to_nat height) (replicate (Z.to_nat width) 0%Q)).

(** [a[y][x] = v] *)
Definition np_setitem (a : ndarray) (y x : Z) (v : Q) : result ndarray :=
  match norm_index (length a) y with
  | Ok j =>
      match a !! j with
      | Some row =>
          match norm_index (length row) x with
          | Ok i => Ok (<[j := <[i := v]> row]> a)
          | Raise e => Raise e
          | Timeout => Timeout
          end
      | None => Raise IndexError
      end
  | Raise e => Raise e
  | Timeout => Timeout
  end.

(** [np.min(a)] and [np.max(a)]: reductions over all cells, which raise
    [ValueError] on an array without cells. *)
Definition np_min (a : ndarray) : result Q :=
  match concat a with
  | [] => Raise ValueError
  | v :: vs => Ok (fold_left Qmin vs v)
  end.

Definition np_max (a : ndarray) : result Q :=
  match concat a with
  | [] => Raise ValueError
  | v :: vs => Ok (fold_left Qmax vs v)
  end.

(** ** The program *)

(** Linear interpolation (app.py, line 13), in exact arithmetic;
    [Float64.lerp] is the same expression on float64. *)
Definition lerp (a b x : Q) : Q := (a + x * (b - a))%Q.

(** Smootherstep (app.py, line 17), in exact arithmetic; [Float64.fade]
    is the same expression on float64. *)
Definition fade (t : Q) : Q := (t * t * t * (t * (t * 6 - 15) + 10))%Q.

(** The table of gradient vectors (app.py, lines 31-34). *)
Definition gradients : list (Z * Z) :=
  [(1, 0); (-1, 0); (0, 1); (0, -1); (1, 1); (1, -1); (-1, 1); (-1, -1)].

(** The literals of [generate_world]. *)
Definition water_threshold : Q := 4 # 10.
Definition grass_threshold : Q := 7 # 10.

(** The body of the classification loop (app.py, lines 159-164). *)
Definition classify_cell (noise_val : Q) : Z :=
  if Qlt_le_dec noise_val water_threshold then 0
  else if Qlt_le_dec noise_val grass_threshold then 1
  else 2.

(** The two nested loops of [generate_world] (app.py, lines 155-165): each
    builds its list by [append]. *)
Definition classify_row (row : list Q) : list Z :=
  fold_left (fun terrain_row noise_val => terrain_row ++ [classify_cell noise_val])
            row [].

Definition classify (noise_map : ndarray) : list (list Z) :=
  fold_left (fun terrain_tiles row => terrain_tiles ++ [classify_row row])
            noise_map [].

(** The JSON document returned by the route. *)
Record world : Type := mkWorld { size : Z; tiles : list (list Z) }.

Section Program.

Context {G : Type} `{PRNG G}.

(** [random.seed(a)] overwrites the module-level generator. *)
Definition random_seed (a : Z) : Py G unit := fun _ => (Ok tt, rng_seed a).

(** [random.randint(a, b)] draws from it. *)
Definition random_randint (a b : Z) : Py G Z := rng_randint a b.

(** [gradient(ix, iy, x, y, random_seed)] (app.py, lines 22-44). *)
Definition gradient (ix iy : Z) (x y : Q) (seed : Z) : Py G Q :=
  _ <- random_seed (seed + ix * 100000 + iy * 1000) ;;
  k <- random_randint 0 (Z.of_nat (length gradients) - 1) ;;
  grad_vec <- lift (py_index gradients k) ;;
  let dx := (x - inject_Z ix)%Q in
  let dy := (y - inject_Z iy)%Q in
  ret (inject_Z (fst grad_vec) * dx + inject_Z (snd grad_vec) * dy)%Q.

(** One octave at one sample point (app.py, lines 90-112, up to the
    interpolated value [lerp(ix0, ix1, sy)]). *)
Definition octave_value (sample_x sample_y : Q) (seed : Z) : Py G Q :=
  let x0 := Qfloor sample_x in
  let x1 := x0 + 1 in
  let y0 := Qfloor sample_y in
  let y1 := y0 + 1 in
  let sx := fade (sample_x - inject_Z x0) in
  let sy := fade (sample_y - inject_Z y0) in
  n0 <- gradient x0 y0 sample_x sample_y seed ;;
  n1 <- gradient x1 y0 sample_x sample_y seed ;;
  n2 <- gradient x0 y1 sample_x sample_y seed ;;
  n3 <- gradient x1 y1 sample_x sample_y seed ;;
  let ix0 := lerp n0 n1 sx in
  let ix1 := lerp n2 n3 sx in
  ret (lerp ix0 ix1 sy).

(** The body of the octave loop (app.py, lines 84-112). *)
Definition octave_step (amplitudes_config : list (Q * Q)) (scale : Q)
    (seed : Z) (x y : Z) (noise_value : Q) (i : Z) : Py G Q :=
  fa <- lift (py_index amplitudes_config i) ;;
  let '(frequency, amplitude) := fa in
  xs <- lift (py_div (inject_Z x) scale) ;;
  let sample_x := (xs * frequency)%Q in
  ys <- lift (py_div (inject_Z y) scale) ;;
  let sample_y := (ys * frequency)%Q in
  o <- octave_value sample_x sample_y seed ;;
  ret (noise_value + o * amplitude)%Q.

(** The value accumulated for one pixel (app.py, lines 81-112). *)
Definition pixel_value (amplitudes_config : list (Q * Q)) (octaves : Z)
    (scale : Q) (seed : Z) (x y : Z) : Py G Q :=
  foldM (octave_step amplitudes_config scale seed x y) 0%Q (range octaves).

(** The body of the loop over [x] (app.py, lines 81-115). *)
Definition pixel_step (amplitudes_config : list (Q * Q)) (octaves : Z)
    (scale : Q) (seed : Z) (y : Z) (noise_map : ndarray) (x : Z) : Py G ndarray :=
  noise_value <- pixel_value amplitudes_config octaves scale seed x y ;;
  lift (np_setitem noise_map y x noise_value).

(** The body of the loop over [y] (app.py, lines 80-115). *)
Definition row_step (amplitudes_config : list (Q * Q)) (width octaves : Z)
    (scale : Q) (seed : Z) (noise_map : ndarray) (y : Z) : Py G ndarray :=
  foldM (pixel_step amplitudes_config octaves scale seed y) noise_map (range width).

(** [amplitudes_config] (app.py, lines 71-76); [max_amplitude] is never
    read and is left out.  In exact arithmetic [**] always returns; on
    float64 it raises [OverflowError] when the power overflows, which
    [powers_in_range] excludes. *)
Definition make_amplitudes_config (octaves : Z) (persistence lacunarity : Q)
    : list (Q * Q) :=
  fold_left (fun cfg octave => cfg ++ [(lacunarity ^ octave, persistence ^ octave)%Q])
            (range octaves) [].

(** [generate_perlin_noise] up to the end of the pixel loops (app.py,
    lines 67-115): the field before normalisation. *)
Definition raw_noise_map (width height octaves : Z)
    (persistence lacunarity scale : Q) (seed : Z) : Py G ndarray :=
  noise_map <- lift (np_zeros height width) ;;
  let amplitudes_config := make_amplitudes_config octaves persistence lacunarity in
  foldM (row_step amplitudes_config width octaves scale seed) noise_map (range height).

(** The normalisation (app.py, lines 119-125), in exact arithmetic: it
    agrees with the program when [max_val - min_val] does not overflow
    ([spread_in_range]); [Float64.normalize] is the same code on float64. *)
Definition normalize (noise_map : ndarray) : Py G ndarray :=
  min_val <- lift (np_min noise_map) ;;
  max_val <- lift (np_max noise_map) ;;
  if Qlt_le_dec 0 (max_val - min_val) then
    ret (map (map (fun v => ((v - min_val) / (max_val - min_val))%Q)) noise_map)
  else
    ret (map (map (fun _ => 1 # 2)) noise_map).

(** [generate_perlin_noise(width, height, octaves, persistence, lacunarity,
    scale, seed)] (app.py, lines 47-127). *)
Definition generate_perlin_noise (width height octaves : Z)
    (persistence lacunarity scale : Q) (seed : Z) : Py G ndarray :=
  noise_map <- raw_noise_map width height octaves persistence lacunarity scale seed ;;
  normalize noise_map.

(** [generate_world] for the parsed query parameters [seed] and [size]
    (app.py, lines 136-168).  The second [print] reads
    [terrain_tiles[0]]. *)
Definition generate_world (seed size : Z) : Py G world :=
  noise_map <- generate_perlin_noise size size 4 (1 # 100) 2 30 seed ;;
  let terrain_tiles := classify noise_map in
  _ <- lift (py_index terrain_tiles 0) ;;
  ret (mkWorld size terrain_tiles).

End Program.

(** ** Notions used to state the properties *)

(** The outcome of [m] does not depend on the generator state it starts
    from. *)
Definition stateless {G A} (m : Py G A) : Prop :=
  forall g1 g2, fst (m g1) = fst (m g2).

(** Neither the outcome nor the state left behind depends on it. *)
Definition resets {G A} (m : Py G A) : Prop :=
  forall g1 g2, m g1 = m g2.

(** The sample coordinate of pixel coordinate [v] in an octave of the given
    frequency (app.py, lines 87-88). *)
Definition sample_coord (v : Z) (scale frequency : Q) : Q :=
  (inject_Z v / scale * frequency)%Q.

(** [height] rows of [width] cells. *)
Definition shape (height width : Z) (a : ndarray) : Prop :=
  length a = Z.to_nat height /\ Forall (fun row => length row = Z.to_nat width) a.

(** The cell in row [y], column [x]. *)
Definition cell {A} (a : list (list A)) (y x : Z) : option A :=
  match a !! Z.to_nat y with
  | Some row => row !! Z.to_nat x
  | None => None
  end.

(** The array after a successful [a[y][x] = v]. *)
Definition set_cell (a : ndarray) (y x : Z) (v : Q) : ndarray :=
  match a !! Z.to_nat y with
  | Some row => <[Z.to_nat y := <[Z.to_nat x := v]> row]> a
  | None => a
  end.

(** The array [np.zeros((height, width))] returns for sizes that are not
    negative. *)
Definition zeros (height width : Z) : ndarray :=
  replicate (Z.to_nat height) (replicate (Z.to_nat width) 0%Q).

Section GridNotions.

(** The value assigned at each position. *)
Variable pv : Z -> Z -> Q.

(** The array after the loop over [x] for row [y], and after the loop
    over [y], when every assignment succeeds. *)
Definition row_val (y : Z) (a : ndarray) (xs : list Z) : ndarray :=
  fold_left (fun a x => set_cell a y x (pv x y)) xs a.

Definition grid_val (width : Z) (a : ndarray) (ys : list Z) : ndarray :=
  fold_left (fun a y => row_val y a (range width)) ys a.

End GridNotions.

Section Notions.

Context {G : Type} `{PRNG G}.

(** The seed that [gradient] installs for the cell [(ix, iy)]. *)
Definition local_seed (seed ix iy : Z) : Z := seed + ix * 100000 + iy * 1000.

(** The draw made for a cell returns. *)
Definition draws (seed ix iy : Z) : Prop :=
  exists k g', rng_randint 0 7 (rng_seed (local_seed seed ix iy)) = (Ok k, g').

(** The index drawn for a cell. *)
Definition grad_index (seed ix iy : Z) : Z :=
  match fst (rng_randint 0 7 (rng_seed (local_seed seed ix iy))) with
  | Ok k => k
  | _ => 0
  end.

(** The vector selected for a cell. *)
Definition grad_vector (seed ix iy : Z) : Z * Z :=
  nth (Z.to_nat (grad_index seed ix iy)) gradients (0, 0).

(** The value [gradient] returns when its draw returns. *)
Definition gradient_val (ix iy : Z) (x y : Q) (seed : Z) : Q :=
  (inject_Z (fst (grad_vector seed ix iy)) * (x - inject_Z ix)
   + inject_Z (snd (grad_vector seed ix iy)) * (y - inject_Z iy))%Q.

(** The four draws of one octave return. *)
Definition octave_draws (seed : Z) (sample_x sample_y : Q) : Prop :=
  draws seed (Qfloor sample_x) (Qfloor sample_y) /\
  draws seed (Qfloor sample_x + 1) (Qfloor sample_y) /\
  draws seed (Qfloor sample_x) (Qfloor sample_y + 1) /\
  draws seed (Qfloor sample_x + 1) (Qfloor sample_y + 1).

(** The value [octave_value] returns when its draws return. *)
Definition octave_val (sample_x sample_y : Q) (seed : Z) : Q :=
  let x0 := Qfloor sample_x in
  let x1 := x0 + 1 in
  let y0 := Qfloor sample_y in
  let y1 := y0 + 1 in
  let sx := fade (sample_x - inject_Z x0) in
  let sy := fade (sample_y - inject_Z y0) in
  let n0 := gradient_val x0 y0 sample_x sample_y seed in
  let n1 := gradient_val x1 y0 sample_x sample_y seed in
  let n2 := gradient_val x0 y1 sample_x sample_y seed in
  let n3 := gradient_val x1 y1 sample_x sample_y seed in
  lerp (lerp n0 n1 sx) (lerp n2 n3 sx) sy.

(** Every octave of a pixel draws successfully. *)
Definition pixel_draws (seed octaves : Z) (lacunarity scale : Q) (x y : Z) : Prop :=
  forall i, 0 <= i < octaves ->
    octave_draws seed (sample_coord x scale (lacunarity ^ i))
                      (sample_coord y scale (lacunarity ^ i)).

(** The value accumulated for a pixel when all its draws return. *)
Definition pixel_val (octaves : Z) (persistence lacunarity scale : Q)
    (seed : Z) (x y : Z) : Q :=
  fold_left
    (fun noise_value i =>
       (noise_value
        + octave_val (sample_coord x scale (lacunarity ^ i))
                     (sample_coord y scale (lacunarity ^ i)) seed
          * persistence ^ i)%Q)
    (range octaves) 0%Q.

(** Every draw needed for a [width] x [height] field returns. *)
Definition field_draws (width height octaves : Z) (lacunarity scale : Q)
    (seed : Z) : Prop :=
  forall x y, 0 <= x < width -> 0 <= y < height ->
    pixel_draws seed octaves lacunarity scale x y.

(** The field the pixel loops leave when every draw returns. *)
Definition raw_val (width height octaves : Z) (persistence lacunarity scale : Q)
    (seed : Z) : ndarray :=
  grid_val (pixel_val octaves persistence lacunarity scale seed) width
           (zeros height width) (range height).

(** Boolean counterparts of [draws], [octave_draws] and [field_draws],
    to check by evaluation on a concrete generator. *)
Definition drawsb (seed ix iy : Z) : bool :=
  match fst (rng_randint 0 7 (rng_seed (local_seed seed ix iy))) with
  | Ok _ => true
  | _ => false
  end.

Definition octave_drawsb (seed : Z) (sample_x sample_y : Q) : bool :=
  drawsb seed (Qfloor sample_x) (Qfloor sample_y)
  && drawsb seed (Qfloor sample_x + 1) (Qfloor sample_y)
  && drawsb seed (Qfloor sample_x) (Qfloor sample_y + 1)
  && drawsb seed (Qfloor sample_x + 1) (Qfloor sample_y + 1).

Definition field_drawsb (width height octaves : Z) (lacunarity scale : Q)
    (seed : Z) : bool :=
  forallb (fun y =>
    forallb (fun x =>
      forallb (fun i =>
        octave_drawsb seed (sample_coord x scale (lacunarity ^ i))
                           (sample_coord y scale (lacunarity ^ i)))
        (range octaves))
      (range width))
    (range height).

End Notions.

(** ** The reference definition of the raw field

    The raw field written from the words of the specification (sections 3
    and 4): the quintic in its expanded form, the interpolation, and the sum
    over the octaves.  Only the vector selected for a cell is shared with the
    embedding of the code. *)

Section Reference.

Context {G : Type} `{PRNG G}.

Local Open Scope Q_scope.

(** The quintic of the specification. *)
Definition spec_fade (t : Q) : Q := 6 * t ^ 5 - 15 * t ^ 4 + 10 * t ^ 3.

Definition spec_lerp (a b t : Q) : Q := a + t * (b - a).

Definition spec_frequency (lacunarity : Q) (i : Z) : Q := lacunarity ^ i.

Definition spec_amplitude (persistence : Q) (i : Z) : Q := persistence ^ i.

(** The dot product of the vector selected for the corner
    [(cellX, cellY)] with the displacement of the sample point from it. *)
Definition spec_corner (seed cellX cellY : Z) (sampleX sampleY : Q) : Q :=
  let '(gx, gy) := grad_vector seed cellX cellY in
  inject_Z gx * (sampleX - inject_Z cellX) + inject_Z gy * (sampleY - inject_Z cellY).

(** The fade-weighted bilinear interpolation of the four corners. *)
Definition spec_octave (seed : Z) (sampleX sampleY : Q) : Q :=
  let x0 := Qfloor sampleX in
  let y0 := Qfloor sampleY in
  let sx := spec_fade (sampleX - inject_Z x0) in
  let sy := spec_fade (sampleY - inject_Z y0) in
  spec_lerp
    (spec_lerp (spec_corner seed x0 y0 sampleX sampleY)
               (spec_corner seed (x0 + 1) y0 sampleX sampleY) sx)
    (spec_lerp (spec_corner seed x0 (y0 + 1) sampleX sampleY)
               (spec_corner seed (x0 + 1) (y0 + 1) sampleX sampleY) sx)
    sy.

(** The sum over the octaves [0 <= i < octaves]. *)
Definition spec_raw (octaves : Z) (persistence lacunarity scale : Q) (seed : Z)
    (x y : Z) : Q :=
  fold_right
    (fun i acc =>
       spec_amplitude persistence i
       * spec_octave seed
           (inject_Z x / scale * spec_frequency lacunarity i)
           (inject_Z y / scale * spec_frequency lacunarity i)
       + acc)
    0 (range octaves).

End Reference.

(** ** Notions used by the further properties *)

(** Two runs leave the same generator state and have the same outcome, the
    returned numbers being compared as rationals. *)
Definition same_outcome {G : Type} (r1 r2 : result Q * G) : Prop :=
  snd r1 = snd r2 /\
  match fst r1, fst r2 with
  | Ok a, Ok b => (a == b)%Q
  | Raise e1, Raise e2 => e1 = e2
  | Timeout, Timeout => True
  | _, _ => False
  end.

(** The sum of the amplitudes [persistence ** i] of the octaves
    [0 <= i < octaves]. *)
Definition amplitude_sum (octaves : Z) (persistence : Q) : Q :=
  fold_right (fun i acc => (persistence ^ i + acc)%Q) 0%Q (range octaves).

(** ** The range of float64

    The cells, parameters and intermediate values of the program are
    float64.  In exact arithmetic nothing overflows; the properties whose
    truth on the program depends on the range of float64 carry the conditions
    below as hypotheses. *)

(** The least magnitude that float64 rounds to infinity,
    [2^1024 - 2^970]. *)
Definition float_overflow : Q := inject_Z (2 ^ 1024 - 2 ^ 970).

(** A magnitude well inside the range, [2^1000]. *)
Definition float_margin : Q := inject_Z (2 ^ 1000).

(** No power [lacunarity ** octave] or [persistence ** octave] computed
    for [amplitudes_config] (app.py, lines 73-74) overflows; Python raises
    [OverflowError] when one does. *)
Definition powers_in_range (octaves : Z) (persistence lacunarity : Q) : Prop :=
  forall i, 0 <= i < octaves ->
    (Qabs (lacunarity ^ i) < float_overflow)%Q /\
    (Qabs (persistence ^ i) < float_overflow)%Q.

(** No two cells are further apart than float64 can represent:
    [max_val - min_val] (app.py, line 121) does not overflow. *)
Definition spread_in_range (a : ndarray) : Prop :=
  forall v w, In v (concat a) -> In w (concat a) -> (v - w < float_overflow)%Q.

(** The amplitudes are not negative and their sum is within the margin, so
    that no accumulated value and no difference of two of them overflows. *)
Definition amplitudes_in_range (octaves : Z) (persistence : Q) : Prop :=
  (0 <= persistence)%Q /\ (amplitude_sum octaves persistence <= float_margin)%Q.

(** Every frequency and every sample coordinate of the field is within the
    margin, so that [lacunarity ** octave], [x / scale * frequency] and
    [math.floor] of it do not overflow. *)
Definition samples_in_range (width height octaves : Z) (lacunarity scale : Q) : Prop :=
  (forall i, 0 <= i < octaves -> (Qabs (lacunarity ^ i) <= float_margin)%Q) /\
  (forall c i, 0 <= c < Z.max width height -> 0 <= i < octaves ->
     (Qabs (inject_Z c / scale) <= float_margin)%Q /\
     (Qabs (sample_coord c scale (lacunarity ^ i)) <= float_margin)%Q).

(** ** The normalisation and the interpolation helpers on float64

    The same expressions as [lerp], [fade] and the normalisation of
    [generate_perlin_noise], evaluated in binary64 with the rounding of IEEE
    754, as Python and numpy evaluate them. *)

Module Float64.

Import PrimFloat.
Local Open Scope float_scope.

(** app.py, line 14. *)
Definition lerp (a b x : float) : float := a + x * (b - a).

(** app.py, line 18. *)
Definition fade (t : float) : float := t * t * t * (t * (t * 6 - 15) + 10).

(** [np.minimum] and [np.maximum]: a NaN operand is returned. *)
Definition minimum (a b : float) : float :=
  if is_nan a then a else if is_nan b then b else if b <? a then b else a.

Definition maximum (a b : float) : float :=
  if is_nan a then a else if is_nan b then b else if a <? b then b else a.

(** [np.min] and [np.max] of a float64 array (app.py, lines 119-120). *)
Definition np_min (a : list (list float)) : result float :=
  match concat a with
  | [] => Raise ValueError
  | v :: vs => Ok (fold_left minimum vs v)
  end.

Definition np_max (a : list (list float)) : result float :=
  match concat a with
  | [] => Raise ValueError
  | v :: vs => Ok (fold_left maximum vs v)
  end.

(** The normalisation (app.py, lines 119-125). *)
Definition normalize (noise_map : list (list float)) : result (list (list float)) :=
  match np_min noise_map with
  | Ok min_val =>
      match np_max noise_map with
      | Ok max_val =>
          if 0 <? max_val - min_val then
            Ok (map (map (fun v => (v - min_val) / (max_val - min_val))) noise_map)
          else
            Ok (map (map (fun _ => 0.5)) noise_map)
      | Raise e => Raise e
      | Timeout => Timeout
      end
  | Raise e => Raise e
  | Timeout => Timeout
  end.

End Float64.

(** * Properties *)

(** ** The computation monad *)

Lemma resets_stateless {G A} (m : Py G A) : resets m -> stateless m.
Proof. intros Hm g1 g2. now rewrite (Hm g1 g2). Qed.

Lemma stateless_ret {G A} (a : A) : stateless (G := G) (ret a).
Proof. intros g1 g2. reflexivity. Qed.

Lemma stateless_lift {G A} (r : result A) : stateless (G := G) (lift r).
Proof. intros g1 g2. reflexivity. Qed.

Lemma stateless_bind {G A B} (m : Py G A) (f : A -> Py G B) :
  stateless m -> (forall a, stateless (f a)) -> stateless (a <- m ;; f a).
Proof.
  intros Hm Hf g1 g2. unfold bind.
  specialize (Hm g1 g2).
  destruct (m g1) as [[a1 | e1 |] s1], (m g2) as [[a2 | e2 |] s2];
    simpl in Hm; try discriminate; try (inversion Hm; subst; reflexivity).
  inversion Hm; subst. apply Hf.
Qed.

Lemma resets_bind {G A B} (m : Py G A) (f : A -> Py G B) :
  resets m -> resets (a <- m ;; f a).
Proof. intros Hm g1 g2. unfold bind. now rewrite (Hm g1 g2). Qed.

Lemma stateless_foldM {G A B} (f : B -> A -> Py G B) (l : list A) :
  (forall b a, stateless (f b a)) -> forall b, stateless (foldM f b l).
Proof.
  intros Hf. induction l as [| a l IH]; intros b; simpl.
  - apply stateless_ret.
  - apply stateless_bind; [apply Hf | intros b'; apply IH].
Qed.

(** A computation that returns [v] and leaves the generator alone. *)
Lemma bind_ok {G A B} (m : Py G A) (f : A -> Py G B) g a g' :
  m g = (Ok a, g') -> (x <- m ;; f x) g = f a g'.
Proof. intros Hm. unfold bind. now rewrite Hm. Qed.

Lemma bind_raise {G A B} (m : Py G A) (f : A -> Py G B) g e g' :
  m g = (Raise e, g') -> (x <- m ;; f x) g = (Raise e, g').
Proof. intros Hm. unfold bind. now rewrite Hm. Qed.

(** A loop whose every iteration returns, with an invariant on the
    variables it threads. *)
Lemma foldM_returns {G A B} (I : B -> Prop) (f : B -> A -> Py G B)
    (fp : B -> A -> B) (l : list A) :
  (forall a b g, In a l -> I b ->
     exists g', f b a g = (Ok (fp b a), g') /\ I (fp b a)) ->
  forall b g, I b ->
    exists g', foldM f b l g = (Ok (fold_left fp l b), g') /\ I (fold_left fp l b).
Proof.
  induction l as [| a l IH]; intros Hf b g Hb; simpl.
  - exists g. split; [reflexivity | assumption].
  - destruct (Hf a b g (or_introl eq_refl) Hb) as (g1 & Hrun & Hinv).
    destruct (IH (fun a' b' g' Hin => Hf a' b' g' (or_intror Hin)) (fp b a) g1 Hinv)
      as (g2 & Hrest & Hinv2).
    exists g2. split; [| assumption].
    rewrite (bind_ok _ _ _ _ _ Hrun). exact Hrest.
Qed.

(** A loop whose iterations change neither its variables nor the
    generator. *)
Lemma foldM_fixed {G A B} (f : B -> A -> Py G B) (b : B) (l : list A) :
  (forall a g, In a l -> f b a g = (Ok b, g)) ->
  forall g, foldM f b l g = (Ok b, g).
Proof.
  induction l as [| a l IH]; intros Hf g; simpl; [reflexivity |].
  rewrite (bind_ok _ _ _ _ _ (Hf a g (or_introl eq_refl))).
  apply IH. intros a' g' Hin. apply Hf. now right.
Qed.

(** ** Python primitives *)

Lemma range_nonpos n : n <= 0 -> range n = [].
Proof. intros Hn. unfold range, seqZ. now replace (Z.to_nat n) with O by lia. Qed.

Lemma range_pos n : 0 < n -> range n = 0 :: seqZ 1 (n - 1).
Proof.
  intros Hn. unfold range. rewrite (seqZ_cons 0 n) by lia.
  now replace (Z.succ 0) with 1 by lia; replace (Z.pred n) with (n - 1) by lia.
Qed.

Lemma In_range n i : In i (range n) <-> 0 <= i < n.
Proof. unfold range. rewrite <- list_elem_of_In, elem_of_seqZ. lia. Qed.

Lemma norm_index_in_range len i :
  0 <= i < Z.of_nat len -> norm_index len i = Ok (Z.to_nat i).
Proof.
  intros Hi. unfold norm_index.
  destruct (Z.ltb_spec i 0); [lia |].
  destruct (Z.leb_spec 0 i); [| lia].
  destruct (Z.ltb_spec i (Z.of_nat len)); [| lia].
  reflexivity.
Qed.

Lemma py_index_in_range {A} (l : list A) i a :
  0 <= i -> l !! Z.to_nat i = Some a -> py_index l i = Ok a.
Proof.
  intros Hi Hl. unfold py_index.
  rewrite norm_index_in_range.
  - now rewrite Hl.
  - apply lookup_lt_Some in Hl. lia.
Qed.

Lemma py_div_nonzero a b : ~ (b == 0)%Q -> py_div a b = Ok (a / b)%Q.
Proof.
  intros Hb. unfold py_div.
  destruct (Qeq_bool b 0) eqn:E; [| reflexivity].
  apply Qeq_bool_iff in E. contradiction.
Qed.

Lemma py_div_zero a b : (b == 0)%Q -> py_div a b = Raise ZeroDivisionError.
Proof.
  intros Hb. unfold py_div. apply Qeq_bool_iff in Hb. now rewrite Hb.
Qed.

(** ** The generator of CPython keeps the contract of [randint] *)

Module MT19937_facts.
Import MT19937.

Lemma u32_nonneg z : 0 <= u32 z.
Proof. unfold u32. apply Z.land_nonneg. right. lia. Qed.

Lemma genrand_uint32_nonneg s : 0 <= fst (genrand_uint32 s).
Proof. unfold genrand_uint32. simpl. apply u32_nonneg. Qed.

Lemma getrandbits_words_nonneg words :
  forall k s, 0 <= fst (getrandbits_words words k s).
Proof.
  induction words as [| w IH]; intros k s; cbn [getrandbits_words]; [simpl; lia |].
  pose proof (genrand_uint32_nonneg s) as Hr.
  destruct (genrand_uint32 s) as [r s1]. cbn [fst] in Hr.
  specialize (IH (k - 32) s1).
  destruct (getrandbits_words w (k - 32) s1) as [hi s2]. cbn [fst] in *.
  assert (0 <= Z.shiftl hi 32) by now apply Z.shiftl_nonneg.
  assert (0 <= (if k <? 32 then Z.shiftr r (32 - k) else r)).
  { destruct (k <? 32); [now apply Z.shiftr_nonneg | assumption]. }
  lia.
Qed.

Lemma getrandbits_nonneg k s r s' :
  getrandbits k s = (Ok r, s') -> 0 <= r.
Proof.
  unfold getrandbits.
  destruct (k <? 0); [discriminate |].
  destruct (k =? 0); [intros E; inversion E; lia |].
  destruct (k <=? 32).
  - pose proof (genrand_uint32_nonneg s) as Hr.
    destruct (genrand_uint32 s) as [r0 s1]. simpl in Hr.
    intros E. inversion E; subst. now apply Z.shiftr_nonneg.
  - pose proof (getrandbits_words_nonneg (Z.to_nat ((k - 1) / 32 + 1)) k s) as Hr.
    destruct (getrandbits_words _ k s) as [r0 s1]. simpl in Hr.
    intros E. now inversion E; subst.
Qed.

Lemma randbelow_loop_range fuel n k :
  forall s r s', randbelow_loop fuel n k s = (Ok r, s') -> 0 <= r < n.
Proof.
  induction fuel as [| fuel IH]; intros s r s'; simpl; [discriminate |].
  destruct (getrandbits k s) as [[r0 | e |] s1] eqn:Hbits; try discriminate.
  destruct (Z.ltb_spec r0 n) as [Hlt | Hge].
  - intros E. inversion E; subst.
    split; [eapply getrandbits_nonneg; eassumption | assumption].
  - apply IH.
Qed.

Lemma randint_range a b s k s' :
  randint a b s = (Ok k, s') -> a <= k <= b.
Proof.
  unfold randint, randrange.
  destruct (0 <? b + 1 - a); [| discriminate].
  destruct (randbelow (b + 1 - a) s) as [[r | e |] s1] eqn:Hr; try discriminate.
  intros E. inversion E; subst.
  apply randbelow_loop_range in Hr. lia.
Qed.

End MT19937_facts.

#[global] Instance MT19937_laws : PRNGLaws MT19937.state.
Proof. constructor. exact MT19937_facts.randint_range. Qed.

(** ** The gradient sampler *)

Section GradientFacts.

Context {G : Type} `{PRNG G}.

Lemma gradient_unfold ix iy x y seed g :
  gradient ix iy x y seed g =
  match rng_randint 0 7 (rng_seed (local_seed seed ix iy)) with
  | (Ok k, g') =>
      match py_index gradients k with
      | Ok grad_vec =>
          (Ok (inject_Z (fst grad_vec) * (x - inject_Z ix)
               + inject_Z (snd grad_vec) * (y - inject_Z iy))%Q, g')
      | Raise e => (Raise e, g')
      | Timeout => (Timeout, g')
      end
  | (Raise e, g') => (Raise e, g')
  | (Timeout, g') => (Timeout, g')
  end.
Proof.
  unfold gradient, bind, random_seed, random_randint, local_seed, lift, ret.
  change (Z.of_nat (length gradients) - 1) with 7.
  destruct (rng_randint 0 7 _) as [[k | e |] g']; try reflexivity.
Qed.

Lemma gradient_resets ix iy x y seed : resets (gradient ix iy x y seed).
Proof. intros g1 g2. now rewrite !gradient_unfold. Qed.

Lemma gradient_final_state ix iy x y seed g :
  snd (gradient ix iy x y seed g) =
  snd (rng_randint 0 7 (rng_seed (local_seed seed ix iy))).
Proof.
  rewrite gradient_unfold.
  destruct (rng_randint 0 7 _) as [[k | e |] g']; try reflexivity.
  destruct (py_index gradients k); reflexivity.
Qed.

Lemma gradients_lookup k :
  0 <= k < 8 -> gradients !! Z.to_nat k = Some (nth (Z.to_nat k) gradients (0, 0)).
Proof.
  intros Hk.
  assert (Hc : k = 0 \/ k = 1 \/ k = 2 \/ k = 3 \/ k = 4 \/ k = 5 \/ k = 6 \/ k = 7)
    by lia.
  repeat (destruct Hc as [-> | Hc]; [reflexivity |]). now subst.
Qed.

Context `{!PRNGLaws G}.

Lemma gradient_returns ix iy x y seed g :
  draws seed ix iy ->
  exists g', gradient ix iy x y seed g = (Ok (gradient_val ix iy x y seed), g').
Proof.
  intros (k & g' & Hdraw). exists g'.
  rewrite gradient_unfold.
  unfold gradient_val, grad_vector, grad_index. rewrite Hdraw. simpl fst.
  pose proof (rng_randint_range _ _ _ _ _ Hdraw) as Hk.
  rewrite (py_index_in_range gradients k _ ltac:(lia) (gradients_lookup k ltac:(lia))).
  reflexivity.
Qed.

End GradientFacts.

(** ** Octaves and pixels *)

Lemma fold_left_snoc_map {A B} (f : A -> B) (l : list A) (acc : list B) :
  fold_left (fun acc a => acc ++ [f a]) l acc = acc ++ map f l.
Proof.
  revert acc. induction l as [| a l IH]; intros acc; simpl.
  - now rewrite app_nil_r.
  - rewrite IH, <- app_assoc. reflexivity.
Qed.

Lemma lookup_map_range {B} (f : Z -> B) n i :
  0 <= i < n -> map f (range n) !! Z.to_nat i = Some (f i).
Proof.
  intros Hi. change (map f (range n)) with (f <$> range n).
  rewrite list_lookup_fmap. unfold range.
  rewrite lookup_seqZ_lt by lia.
  simpl. f_equal. f_equal. lia.
Qed.

Section NoiseFacts.

Context {G : Type} `{PRNG G}.

Lemma make_amplitudes_config_map octaves persistence lacunarity :
  make_amplitudes_config octaves persistence lacunarity =
  map (fun octave => (lacunarity ^ octave, persistence ^ octave)%Q) (range octaves).
Proof. unfold make_amplitudes_config. now rewrite fold_left_snoc_map. Qed.

Lemma octave_value_stateless sample_x sample_y seed :
  stateless (octave_value sample_x sample_y seed).
Proof.
  unfold octave_value.
  apply resets_stateless, resets_bind, gradient_resets.
Qed.

Lemma pixel_value_stateless cfg octaves scale seed x y :
  stateless (pixel_value cfg octaves scale seed x y).
Proof.
  unfold pixel_value. apply stateless_foldM. intros b i.
  unfold octave_step.
  apply stateless_bind; [apply stateless_lift |]. intros [frequency amplitude].
  apply stateless_bind; [apply stateless_lift |]. intros xs.
  apply stateless_bind; [apply stateless_lift |]. intros ys.
  apply stateless_bind; [apply octave_value_stateless |]. intros o.
  apply stateless_ret.
Qed.

Lemma raw_noise_map_stateless width height octaves persistence lacunarity scale seed :
  stateless (raw_noise_map width height octaves persistence lacunarity scale seed).
Proof.
  unfold raw_noise_map.
  apply stateless_bind; [apply stateless_lift |]. intros noise_map.
  apply stateless_foldM. intros nm y.
  unfold row_step. apply stateless_foldM. intros nm' x.
  unfold pixel_step.
  apply stateless_bind; [apply pixel_value_stateless |]. intros v.
  apply stateless_lift.
Qed.

Lemma normalize_stateless noise_map : stateless (G := G) (normalize noise_map).
Proof.
  unfold normalize.
  apply stateless_bind; [apply stateless_lift |]. intros min_val.
  apply stateless_bind; [apply stateless_lift |]. intros max_val.
  destruct (Qlt_le_dec 0 (max_val - min_val)); apply stateless_ret.
Qed.

Lemma generate_perlin_noise_stateless width height octaves persistence lacunarity
    scale seed :
  stateless (generate_perlin_noise width height octaves persistence lacunarity
               scale seed).
Proof.
  unfold generate_perlin_noise.
  apply stateless_bind; [apply raw_noise_map_stateless |]. intros nm.
  apply normalize_stateless.
Qed.

Context `{!PRNGLaws G}.

Lemma octave_value_returns sample_x sample_y seed g :
  octave_draws seed sample_x sample_y ->
  exists g', octave_value sample_x sample_y seed g
             = (Ok (octave_val sample_x sample_y seed), g').
Proof.
  intros (H0 & H1 & H2 & H3). unfold octave_value.
  destruct (gradient_returns _ _ sample_x sample_y seed g H0) as (g0 & E0).
  destruct (gradient_returns _ _ sample_x sample_y seed g0 H1) as (g1 & E1).
  destruct (gradient_returns _ _ sample_x sample_y seed g1 H2) as (g2 & E2).
  destruct (gradient_returns _ _ sample_x sample_y seed g2 H3) as (g3 & E3).
  exists g3.
  rewrite (bind_ok _ _ _ _ _ E0), (bind_ok _ _ _ _ _ E1),
          (bind_ok _ _ _ _ _ E2), (bind_ok _ _ _ _ _ E3).
  reflexivity.
Qed.

Lemma octave_step_returns octaves persistence lacunarity scale seed x y acc i g :
  ~ (scale == 0)%Q ->
  0 <= i < octaves ->
  octave_draws seed (sample_coord x scale (lacunarity ^ i))
                    (sample_coord y scale (lacunarity ^ i)) ->
  exists g',
    octave_step (make_amplitudes_config octaves persistence lacunarity)
                scale seed x y acc i g
    = (Ok (acc + octave_val (sample_coord x scale (lacunarity ^ i))
                            (sample_coord y scale (lacunarity ^ i)) seed
                 * persistence ^ i)%Q, g').
Proof.
  intros Hscale Hi Hdraws.
  destruct (octave_value_returns _ _ seed g Hdraws) as (g' & Hoct).
  exists g'. unfold octave_step, bind, lift.
  rewrite make_amplitudes_config_map.
  rewrite (py_index_in_range _ i _ ltac:(lia) (lookup_map_range _ octaves i Hi)).
  rewrite !py_div_nonzero by assumption.
  unfold sample_coord in Hoct. rewrite Hoct. reflexivity.
Qed.

Lemma pixel_value_returns octaves persistence lacunarity scale seed x y g :
  ~ (scale == 0)%Q ->
  pixel_draws seed octaves lacunarity scale x y ->
  exists g',
    pixel_value (make_amplitudes_config octaves persistence lacunarity)
                octaves scale seed x y g
    = (Ok (pixel_val octaves persistence lacunarity scale seed x y), g').
Proof.
  intros Hscale Hdraws. unfold pixel_value, pixel_val.
  destruct (foldM_returns (fun _ => True)
              (octave_step (make_amplitudes_config octaves persistence lacunarity)
                           scale seed x y)
              (fun noise_value i =>
                 (noise_value
                  + octave_val (sample_coord x scale (lacunarity ^ i))
                               (sample_coord y scale (lacunarity ^ i)) seed
                    * persistence ^ i)%Q)
              (range octaves)) with (b := 0%Q) (g := g) as (g' & Hrun & _).
  - intros i acc g1 Hin _. apply In_range in Hin.
    destruct (octave_step_returns octaves persistence lacunarity scale seed x y
                acc i g1 Hscale Hin (Hdraws i Hin)) as (g2 & E).
    exists g2. split; [exact E | exact I].
  - exact I.
  - exists g'. exact Hrun.
Qed.

End NoiseFacts.

(** ** The array of the pixel loops *)

Lemma np_zeros_nonneg height width :
  0 <= height -> 0 <= width -> np_zeros height width = Ok (zeros height width).
Proof.
  intros Hh Hw. unfold np_zeros.
  destruct (Z.ltb_spec height 0); [lia |].
  destruct (Z.ltb_spec width 0); [lia |]. reflexivity.
Qed.

Lemma np_zeros_negative height width :
  height < 0 \/ width < 0 -> np_zeros height width = Raise ValueError.
Proof.
  intros Hneg. unfold np_zeros.
  destruct (Z.ltb_spec height 0); [reflexivity |].
  destruct (Z.ltb_spec width 0); [reflexivity | lia].
Qed.

Lemma shape_zeros height width : shape height width (zeros height width).
Proof.
  split; unfold zeros.
  - apply length_replicate.
  - apply Forall_forall. intros row Hin.
    apply elem_of_replicate in Hin. destruct Hin as [-> _].
    apply length_replicate.
Qed.

Lemma shape_row height width a y :
  shape height width a -> 0 <= y < height ->
  exists row, a !! Z.to_nat y = Some row /\ length row = Z.to_nat width.
Proof.
  intros [Hlen Hrows] Hy.
  destruct (lookup_lt_is_Some_2 a (Z.to_nat y) ltac:(lia)) as [row Hrow].
  exists row. split; [assumption |].
  rewrite Forall_forall in Hrows. apply Hrows.
  eapply list_elem_of_lookup_2. eassumption.
Qed.

Lemma np_setitem_in_range height width a y x v :
  shape height width a -> 0 <= y < height -> 0 <= x < width ->
  np_setitem a y x v = Ok (set_cell a y x v).
Proof.
  intros Hs Hy Hx.
  destruct (shape_row _ _ _ _ Hs Hy) as (row & Hrow & Hlen).
  unfold np_setitem, set_cell.
  rewrite norm_index_in_range by (destruct Hs; lia).
  rewrite Hrow, norm_index_in_range by lia. reflexivity.
Qed.

Lemma shape_set_cell height width a y x v :
  shape height width a -> shape height width (set_cell a y x v).
Proof.
  intros [Hlen Hrows]. unfold set_cell.
  destruct (a !! Z.to_nat y) as [row |] eqn:Hrow; [| now split].
  split.
  - now rewrite length_insert.
  - apply Forall_insert; [assumption |].
    cbv beta. rewrite length_insert. rewrite Forall_forall in Hrows. apply Hrows.
    eapply list_elem_of_lookup_2. eassumption.
Qed.

Lemma cell_set_cell_eq height width a y x v :
  shape height width a -> 0 <= y < height -> 0 <= x < width ->
  cell (set_cell a y x v) y x = Some v.
Proof.
  intros Hs Hy Hx.
  destruct (shape_row _ _ _ _ Hs Hy) as (row & Hrow & Hlen).
  unfold cell, set_cell. rewrite Hrow.
  rewrite list_lookup_insert_eq by (destruct Hs; lia).
  apply list_lookup_insert_eq. lia.
Qed.

Lemma cell_set_cell_ne a y x v y' x' :
  0 <= y -> 0 <= x -> 0 <= y' -> 0 <= x' -> (y', x') <> (y, x) ->
  cell (set_cell a y x v) y' x' = cell a y' x'.
Proof.
  intros Hy Hx Hy' Hx' Hne. unfold cell, set_cell.
  destruct (a !! Z.to_nat y) as [row |] eqn:Hrow; [| reflexivity].
  destruct (Z.eq_dec y' y) as [-> | Hyy].
  - rewrite Hrow.
    rewrite list_lookup_insert_eq by (apply lookup_lt_Some in Hrow; lia).
    apply list_lookup_insert_ne. intros E.
    apply Hne. f_equal. lia.
  - rewrite list_lookup_insert_ne by lia. reflexivity.
Qed.

Section GridFacts.

Variable pv : Z -> Z -> Q.

Lemma shape_row_val height width y xs :
  forall a, shape height width a -> shape height width (row_val pv y a xs).
Proof.
  induction xs as [| x xs IH]; intros a Hs; simpl; [assumption |].
  apply IH. now apply shape_set_cell.
Qed.

Lemma shape_grid_val height width ys :
  forall a, shape height width a -> shape height width (grid_val pv width a ys).
Proof.
  induction ys as [| y ys IH]; intros a Hs; simpl; [assumption |].
  apply IH. now apply shape_row_val.
Qed.

Lemma cell_row_val_other y xs y' x' :
  0 <= y -> Forall (fun x => 0 <= x) xs -> 0 <= y' -> 0 <= x' ->
  y' <> y \/ ~ In x' xs ->
  forall a, cell (row_val pv y a xs) y' x' = cell a y' x'.
Proof.
  intros Hy Hxs Hy' Hx'. induction xs as [| x xs IH]; intros Hother a; simpl;
    [reflexivity |].
  inversion Hxs; subst.
  rewrite IH; [| assumption | simpl in Hother; tauto].
  apply cell_set_cell_ne; try assumption.
  intros E. inversion E; subst. simpl in Hother. tauto.
Qed.

Lemma cell_row_val_in height width y xs x :
  0 <= y < height -> Forall (fun x => 0 <= x < width) xs -> In x xs ->
  forall a, shape height width a -> cell (row_val pv y a xs) y x = Some (pv x y).
Proof.
  intros Hy Hxs. induction xs as [| x0 xs IH]; intros Hin a Hs; simpl;
    [contradiction |].
  inversion Hxs; subst.
  destruct (in_dec Z.eq_dec x xs) as [Hin' | Hnotin].
  - apply IH; [assumption | assumption | now apply shape_set_cell].
  - destruct Hin as [-> | Hin]; [| contradiction].
    rewrite cell_row_val_other; try lia; [| | now right].
    + eapply cell_set_cell_eq; eassumption.
    + eapply Forall_impl; [eassumption |]. simpl. intros; lia.
Qed.

Lemma cell_grid_val_other width ys y' x' :
  Forall (fun y => 0 <= y) ys -> 0 <= y' -> 0 <= x' -> ~ In y' ys ->
  forall a, cell (grid_val pv width a ys) y' x' = cell a y' x'.
Proof.
  intros Hys Hy' Hx'. induction ys as [| y ys IH]; intros Hnotin a; simpl;
    [reflexivity |].
  inversion Hys; subst.
  rewrite IH; [| assumption | simpl in Hnotin; tauto].
  apply cell_row_val_other; try assumption.
  - apply List.Forall_forall. intros x Hx. apply In_range in Hx. lia.
  - left. intros ->. apply Hnotin. now left.
Qed.

Lemma cell_grid_val_in height width ys y x :
  Forall (fun y => 0 <= y < height) ys -> In y ys -> 0 <= x < width ->
  forall a, shape height width a -> cell (grid_val pv width a ys) y x = Some (pv x y).
Proof.
  intros Hys Hin Hx. induction ys as [| y0 ys IH]; intros a Hs; simpl;
    [contradiction |].
  inversion Hys; subst.
  destruct (in_dec Z.eq_dec y ys) as [Hin' | Hnotin].
  - apply IH; [assumption | assumption | now apply shape_row_val].
  - destruct Hin as [-> | Hin]; [| contradiction].
    rewrite cell_grid_val_other; try lia; try assumption.
    + eapply cell_row_val_in; try eassumption.
      * apply List.Forall_forall. intros x' Hx'. now apply In_range in Hx'.
      * now apply In_range.
    + eapply Forall_impl; [eassumption |]. simpl. intros; lia.
Qed.

End GridFacts.

(** ** The field before normalisation *)

Section RawFieldFacts.

Context {G : Type} `{PRNG G}.

Context `{!PRNGLaws G}.

Variables (width height octaves : Z) (persistence lacunarity scale : Q) (seed : Z).

Hypothesis scale_nonzero : ~ (scale == 0)%Q.

Lemma pixel_step_returns y a x g :
  shape height width a -> 0 <= y < height -> 0 <= x < width ->
  pixel_draws seed octaves lacunarity scale x y ->
  exists g',
    pixel_step (make_amplitudes_config octaves persistence lacunarity)
               octaves scale seed y a x g
    = (Ok (set_cell a y x (pixel_val octaves persistence lacunarity scale seed x y)),
       g').
Proof.
  intros Hs Hy Hx Hdraws.
  destruct (pixel_value_returns octaves persistence lacunarity scale seed x y g
              scale_nonzero Hdraws) as (g' & Hrun).
  exists g'. unfold pixel_step.
  rewrite (bind_ok _ _ _ _ _ Hrun). unfold lift.
  now rewrite (np_setitem_in_range height width).
Qed.

Lemma row_step_returns y a g :
  shape height width a -> 0 <= y < height ->
  (forall x, 0 <= x < width -> pixel_draws seed octaves lacunarity scale x y) ->
  exists g',
    row_step (make_amplitudes_config octaves persistence lacunarity)
             width octaves scale seed a y g
    = (Ok (row_val (pixel_val octaves persistence lacunarity scale seed) y a
                   (range width)), g').
Proof.
  intros Hs Hy Hdraws. unfold row_step, row_val.
  destruct (foldM_returns (shape height width)
              (pixel_step (make_amplitudes_config octaves persistence lacunarity)
                          octaves scale seed y)
              (fun a x =>
                 set_cell a y x (pixel_val octaves persistence lacunarity scale seed x y))
              (range width)) with (b := a) (g := g) as (g' & Hrun & _).
  - intros x b g1 Hin Hb. apply In_range in Hin.
    destruct (pixel_step_returns y b x g1 Hb Hy Hin (Hdraws x Hin)) as (g2 & E).
    exists g2. split; [exact E | now apply shape_set_cell].
  - exact Hs.
  - exists g'. exact Hrun.
Qed.

Lemma raw_noise_map_returns g :
  0 <= width -> 0 <= height ->
  field_draws width height octaves lacunarity scale seed ->
  exists g',
    raw_noise_map width height octaves persistence lacunarity scale seed g
    = (Ok (raw_val width height octaves persistence lacunarity scale seed), g').
Proof.
  intros Hw Hh Hdraws. unfold raw_noise_map, raw_val, grid_val.
  unfold bind at 1, lift. rewrite np_zeros_nonneg by assumption.
  destruct (foldM_returns (shape height width)
              (row_step (make_amplitudes_config octaves persistence lacunarity)
                        width octaves scale seed)
              (fun a y =>
                 row_val (pixel_val octaves persistence lacunarity scale seed) y a
                         (range width))
              (range height)) with (b := zeros height width) (g := g)
    as (g' & Hrun & _).
  - intros y b g1 Hin Hb. apply In_range in Hin.
    destruct (row_step_returns y b g1 Hb Hin (fun x Hx => Hdraws x y Hx Hin))
      as (g2 & E).
    exists g2. split; [exact E | now apply shape_row_val].
  - apply shape_zeros.
  - exists g'. exact Hrun.
Qed.

Lemma shape_raw_val :
  shape height width (raw_val width height octaves persistence lacunarity scale seed).
Proof. apply shape_grid_val, shape_zeros. Qed.

Lemma cell_raw_val x y :
  0 <= x < width -> 0 <= y < height ->
  cell (raw_val width height octaves persistence lacunarity scale seed) y x
  = Some (pixel_val octaves persistence lacunarity scale seed x y).
Proof.
  intros Hx Hy. unfold raw_val.
  apply (cell_grid_val_in _ height width); try assumption.
  - apply List.Forall_forall. intros y' Hy'. now apply In_range in Hy'.
  - now apply In_range.
  - apply shape_zeros.
Qed.

End RawFieldFacts.

(** ** The pixel loops compute the reference definition *)

Section ReferenceFacts.

Context {G : Type} `{PRNG G}.

Local Open Scope Q_scope.






End ReferenceFacts.

(** ** Deciding that the draws of a field return *)

Section DrawsCheck.

Context {G : Type} `{PRNG G}.

Lemma drawsb_draws seed ix iy : drawsb seed ix iy = true -> draws seed ix iy.
Proof.
  unfold drawsb, draws.
  destruct (rng_randint 0 7 _) as [[k | e |] g'] eqn:E; simpl; try discriminate.
  intros _. now exists k, g'.
Qed.

Lemma octave_drawsb_draws seed sample_x sample_y :
  octave_drawsb seed sample_x sample_y = true -> octave_draws seed sample_x sample_y.
Proof.
  unfold octave_drawsb, octave_draws. rewrite !andb_true_iff.
  intros [[[H0 H1] H2] H3]. repeat split; now apply drawsb_draws.
Qed.

Lemma field_drawsb_draws width height octaves lacunarity scale seed :
  field_drawsb width height octaves lacunarity scale seed = true ->
  field_draws width height octaves lacunarity scale seed.
Proof.
  unfold field_drawsb, field_draws, pixel_draws.
  rewrite forallb_forall. intros Hall x y Hx Hy i Hi.
  specialize (Hall y (proj2 (In_range _ _) Hy)).
  rewrite forallb_forall in Hall.
  specialize (Hall x (proj2 (In_range _ _) Hx)).
  rewrite forallb_forall in Hall.
  apply octave_drawsb_draws, Hall, In_range, Hi.
Qed.

End DrawsCheck.

(** * The claims *)

(** ** Determinism *)

(** C1. Two runs of the pipeline (noise generation, then classification)
    on the same [seed], [width], [height] and generation parameters have the
    same outcome, whatever state the shared generator is in when each run
    starts; the same holds for [generate_world]. *)
Theorem generation_deterministic {G : Type} `{PRNG G}
    (seed width height octaves : Z) (persistence lacunarity scale : Q) (g1 g2 : G) :
  fst ((noise_map <- generate_perlin_noise width height octaves persistence
                       lacunarity scale seed ;;
        ret (classify noise_map)) g1)
  = fst ((noise_map <- generate_perlin_noise width height octaves persistence
                         lacunarity scale seed ;;
          ret (classify noise_map)) g2)
  /\ fst (generate_world seed width g1) = fst (generate_world seed width g2).
Proof.
  split.
  - apply stateless_bind; [apply generate_perlin_noise_stateless |].
    intros nm. apply stateless_ret.
  - unfold generate_world.
    apply stateless_bind; [apply generate_perlin_noise_stateless |]. intros nm.
    apply stateless_bind; [apply stateless_lift |]. intros row.
    apply stateless_ret.
Qed.

(** ** The gradient sampler *)

(** C3. [gradient] installs the seed [seed + ix*100000 + iy*1000], makes
    one [randint(0, 7)] draw [k], which lies in [[0, 8)], and returns the dot
    product of the [k]-th table entry with [(x - ix, y - iy)]; the table has
    8 entries, which are exactly the vectors with components in [{-1, 0, 1}]
    other than the zero vector (4 axis directions, 4 diagonals). *)
Theorem gradient_contract {G : Type} `{PRNG G} `{!PRNGLaws G}
    (ix iy : Z) (x y : Q) (seed : Z) (g : G) (k : Z) (g' : G) :
  rng_randint 0 7 (rng_seed (seed + ix * 100000 + iy * 1000)) = (Ok k, g') ->
  0 <= k < 8 /\
  (exists gx gy,
      gradients !! Z.to_nat k = Some (gx, gy) /\
      gradient ix iy x y seed g
      = (Ok (inject_Z gx * (x - inject_Z ix) + inject_Z gy * (y - inject_Z iy))%Q, g')) /\
  length gradients = 8%nat /\
  (forall vx vy,
      In (vx, vy) gradients <->
      -1 <= vx <= 1 /\ -1 <= vy <= 1 /\ (vx, vy) <> (0, 0)).
Proof.
  intros Hdraw.
  pose proof (rng_randint_range _ _ _ _ _ Hdraw) as Hk.
  split; [lia |]. split; [| split; [reflexivity |]].
  - destruct (nth (Z.to_nat k) gradients (0, 0)) as [gx gy] eqn:Hnth.
    exists gx, gy.
    pose proof (gradients_lookup k ltac:(lia)) as Hlook. rewrite Hnth in Hlook.
    split; [exact Hlook |].
    rewrite gradient_unfold. unfold local_seed. rewrite Hdraw.
    now rewrite (py_index_in_range gradients k _ ltac:(lia) Hlook).
  - intros vx vy. split.
    + simpl. intros Hin.
      repeat (destruct Hin as [E | Hin];
              [inversion E; subst; repeat split; try lia; discriminate |]).
      contradiction.
    + intros (Hx & Hy & Hne).
      assert (Hvx : vx = -1 \/ vx = 0 \/ vx = 1) by lia.
      assert (Hvy : vy = -1 \/ vy = 0 \/ vy = 1) by lia.
      destruct Hvx as [-> | [-> | ->]], Hvy as [-> | [-> | ->]];
        simpl; try tauto.
Qed.

Lemma gradient_contract_witness :
  exists g' : MT19937.state,
    rng_randint 0 7 (rng_seed (123 + 1 * 100000 + 2 * 1000)) = (Ok 3, g') /\
    (0 <= 3 < 8 /\
     (exists gx gy,
         gradients !! Z.to_nat 3 = Some (gx, gy) /\
         gradient 1 2 (3 # 2) (5 # 2) 123 (MT19937.seed 0)
         = (Ok (inject_Z gx * ((3 # 2) - inject_Z 1)
                + inject_Z gy * ((5 # 2) - inject_Z 2))%Q, g')) /\
     length gradients = 8%nat /\
     (forall vx vy,
         In (vx, vy) gradients <->
         -1 <= vx <= 1 /\ -1 <= vy <= 1 /\ (vx, vy) <> (0, 0))).
Proof.
  destruct (rng_randint 0 7 (rng_seed (G := MT19937.state) (123 + 1 * 100000 + 2 * 1000)))
    as [r g'] eqn:Hdraw.
  assert (Hr : r = Ok 3).
  { pose proof (f_equal fst Hdraw) as Hfst. vm_compute in Hfst. now symmetry. }
  subst r. exists g'. split; [reflexivity |].
  exact (gradient_contract 1 2 (3 # 2) (5 # 2) 123 (MT19937.seed 0) 3 g' Hdraw).
Defined.

(** C8, as the code has it.  [gradient] re-seeds the generator shared by
    the whole process: the state it leaves is the one reached from
    [seed(seed + ix*100000 + iy*1000)] by its single draw, whatever the state
    was before the call, and neither its outcome nor that final state depends
    on the state before the call. *)
Theorem gradient_overwrites_shared_generator {G : Type} `{PRNG G}
    (ix iy : Z) (x y : Q) (seed : Z) (g g2 : G) :
  snd (gradient ix iy x y seed g)
  = snd (rng_randint 0 7 (rng_seed (seed + ix * 100000 + iy * 1000)))
  /\ gradient ix iy x y seed g = gradient ix iy x y seed g2.
Proof.
  split; [apply gradient_final_state | apply gradient_resets].
Qed.

(** C8 as stated fails: a call of [gradient] changes the state of the
    shared generator. *)
Lemma gradient_leaves_generator_unchanged_counterexample :
  ~ (forall g : MT19937.state, snd (gradient 0 0 0 0 0 g) = g).
Proof.
  intros Hframe. specialize (Hframe (MT19937.seed 1)).
  apply (f_equal MT19937.index) in Hframe.
  vm_compute in Hframe. discriminate.
Qed.

(** The change is visible to the next user of [random]: after
    [random.seed(1)] the next [randint(0, 7)] is 2, but with a call of
    [gradient] in between it is 6. *)
Example gradient_disturbs_next_draw :
  fst (rng_randint 0 7 (MT19937.seed 1)) = Ok 2 /\
  fst (rng_randint 0 7 (snd (gradient 0 0 0 0 0 (MT19937.seed 1)))) = Ok 6.
Proof. split; vm_compute; reflexivity. Qed.

(** ** Classification *)

Lemma classify_row_map row : classify_row row = map classify_cell row.
Proof. unfold classify_row. now rewrite fold_left_snoc_map. Qed.

Lemma classify_map a : classify a = map (map classify_cell) a.
Proof.
  unfold classify. rewrite fold_left_snoc_map. simpl.
  apply map_ext. intros row. apply classify_row_map.
Qed.

Lemma cell_map {A B} (f : A -> B) (a : list (list A)) y x :
  cell (map (map f) a) y x = option_map f (cell a y x).
Proof.
  unfold cell. change (map (map f) a) with (map f <$> a).
  rewrite list_lookup_fmap.
  destruct (a !! Z.to_nat y) as [row |]; simpl; [| reflexivity].
  change (map f row) with (f <$> row). rewrite list_lookup_fmap.
  now destruct (row !! Z.to_nat x).
Qed.

Lemma classify_cell_water v : (v < water_threshold)%Q <-> classify_cell v = 0.
Proof.
  unfold classify_cell.
  destruct (Qlt_le_dec v water_threshold) as [Hlt | Hge].
  - tauto.
  - split.
    + intros Hlt. exfalso. exact (Qlt_not_le _ _ Hlt Hge).
    + destruct (Qlt_le_dec v grass_threshold); discriminate.
Qed.

Lemma classify_cell_grass v :
  (water_threshold <= v /\ v < grass_threshold)%Q <-> classify_cell v = 1.
Proof.
  unfold classify_cell.
  destruct (Qlt_le_dec v water_threshold) as [Hlt | Hge].
  - split; [| discriminate].
    intros [Hge _]. exfalso. exact (Qlt_not_le _ _ Hlt Hge).
  - destruct (Qlt_le_dec v grass_threshold) as [Hlt2 | Hge2].
    + tauto.
    + split; [| discriminate].
      intros [_ Hlt2]. exfalso. exact (Qlt_not_le _ _ Hlt2 Hge2).
Qed.

Lemma classify_cell_mountain v : (grass_threshold <= v)%Q <-> classify_cell v = 2.
Proof.
  unfold classify_cell.
  destruct (Qlt_le_dec v water_threshold) as [Hlt | Hge].
  - split; [| discriminate].
    intros Hge. exfalso.
    apply (Qlt_not_le _ _ Hlt). apply Qle_trans with grass_threshold; [| assumption].
    unfold water_threshold, grass_threshold, Qle. simpl. lia.
  - destruct (Qlt_le_dec v grass_threshold) as [Hlt2 | Hge2].
    + split; [| discriminate].
      intros Hge2. exfalso. exact (Qlt_not_le _ _ Hlt2 Hge2).
    + tauto.
Qed.

(** C5. Every cell of a field and the code the classification loop gives it
    satisfy: value below 0.4 iff code 0, value in [0.4, 0.7) iff code 1, value
    at least 0.7 iff code 2. *)
Theorem threshold_partition (noise_map : ndarray) (y x : Z) (v : Q) :
  cell noise_map y x = Some v ->
  exists code,
    cell (classify noise_map) y x = Some code /\
    ((v < 4 # 10)%Q <-> code = 0) /\
    ((4 # 10 <= v /\ v < 7 # 10)%Q <-> code = 1) /\
    ((7 # 10 <= v)%Q <-> code = 2).
Proof.
  intros Hcell. exists (classify_cell v). split.
  - rewrite classify_map, cell_map, Hcell. reflexivity.
  - split; [apply classify_cell_water |].
    split; [apply classify_cell_grass | apply classify_cell_mountain].
Qed.

Lemma threshold_partition_witness :
  cell [[1 # 10; 4 # 10]; [69 # 100; 7 # 10]] 1 0 = Some (69 # 100) /\
  exists code,
    cell (classify [[1 # 10; 4 # 10]; [69 # 100; 7 # 10]]) 1 0 = Some code /\
    ((69 # 100 < 4 # 10)%Q <-> code = 0) /\
    ((4 # 10 <= 69 # 100 /\ 69 # 100 < 7 # 10)%Q <-> code = 1) /\
    ((7 # 10 <= 69 # 100)%Q <-> code = 2).
Proof.
  split; [reflexivity |].
  apply (threshold_partition [[1 # 10; 4 # 10]; [69 # 100; 7 # 10]] 1 0 (69 # 100)).
  reflexivity.
Defined.

Example classify_boundaries :
  classify [[1 # 10; 4 # 10]; [69 # 100; 7 # 10]] = [[0; 1]; [1; 2]].
Proof. reflexivity. Qed.

(** C9. The classification is a total function of any field, also of
    values outside [0, 1]: the output has the shape of the input, every code
    is 0, 1 or 2, every value below 0.4 (negative ones too) has code 0 and
    every value from 0.7 on (above 1 too) has code 2. *)
Theorem classify_total (noise_map : ndarray) :
  map (@length Z) (classify noise_map) = map (@length Q) noise_map /\
  (forall code, In code (concat (classify noise_map)) ->
                code = 0 \/ code = 1 \/ code = 2) /\
  (forall v : Q,
      (classify_cell v = 0 \/ classify_cell v = 1 \/ classify_cell v = 2) /\
      ((v < 4 # 10)%Q -> classify_cell v = 0) /\
      ((7 # 10 <= v)%Q -> classify_cell v = 2)).
Proof.
  assert (Hcodes : forall v, classify_cell v = 0 \/ classify_cell v = 1
                             \/ classify_cell v = 2).
  { intros v. unfold classify_cell.
    destruct (Qlt_le_dec v water_threshold); [tauto |].
    destruct (Qlt_le_dec v grass_threshold); tauto. }
  split; [| split].
  - rewrite classify_map, map_map. apply map_ext. intros row. apply length_map.
  - intros code Hin. rewrite classify_map in Hin.
    apply in_concat in Hin. destruct Hin as (row & Hrow & Hin).
    apply in_map_iff in Hrow. destruct Hrow as (qrow & <- & _).
    apply in_map_iff in Hin. destruct Hin as (v & <- & _). apply Hcodes.
  - intros v. split; [apply Hcodes |]. split.
    + apply classify_cell_water.
    + apply classify_cell_mountain.
Qed.

Lemma classify_total_witness :
  classify [[-3 # 1; 5 # 1]; [1 # 2; 7 # 10]] = [[0; 2]; [1; 2]] /\
  classify_cell (-3 # 1) = 0 /\ classify_cell (5 # 1) = 2.
Proof.
  pose proof (classify_total [[-3 # 1; 5 # 1]; [1 # 2; 7 # 10]]) as (_ & _ & Hcell).
  split; [reflexivity |]. split.
  - apply (Hcell (-3 # 1)). reflexivity.
  - apply (Hcell (5 # 1)). discriminate.
Defined.

(** ** Normalisation *)

Lemma Qmin_cases a b : Qmin a b = a \/ Qmin a b = b.
Proof. unfold Qmin, GenericMinMax.gmin. destruct (a ?= b)%Q; auto. Qed.

Lemma Qmax_cases a b : Qmax a b = a \/ Qmax a b = b.
Proof. unfold Qmax, GenericMinMax.gmax. destruct (a ?= b)%Q; auto. Qed.

Lemma fold_min_In vs : forall v, In (fold_left Qmin vs v) (v :: vs).
Proof.
  induction vs as [| a vs IH]; intros v; simpl; [now left |].
  destruct (IH (Qmin v a)) as [E | Hin].
  - rewrite <- E. destruct (Qmin_cases v a) as [-> | ->]; auto.
  - right. now right.
Qed.

Lemma fold_max_In vs : forall v, In (fold_left Qmax vs v) (v :: vs).
Proof.
  induction vs as [| a vs IH]; intros v; simpl; [now left |].
  destruct (IH (Qmax v a)) as [E | Hin].
  - rewrite <- E. destruct (Qmax_cases v a) as [-> | ->]; auto.
  - right. now right.
Qed.

Lemma fold_min_le vs : forall v c, In c (v :: vs) -> (fold_left Qmin vs v <= c)%Q.
Proof.
  induction vs as [| a vs IH]; intros v c Hin; simpl.
  - destruct Hin as [-> | []]. apply Qle_refl.
  - destruct Hin as [-> | [-> | Hin]].
    + apply Qle_trans with (Qmin c a); [apply IH; now left | apply Q.le_min_l].
    + apply Qle_trans with (Qmin v c); [apply IH; now left | apply Q.le_min_r].
    + apply IH. now right.
Qed.

Lemma fold_max_ge vs : forall v c, In c (v :: vs) -> (c <= fold_left Qmax vs v)%Q.
Proof.
  induction vs as [| a vs IH]; intros v c Hin; simpl.
  - destruct Hin as [-> | []]. apply Qle_refl.
  - destruct Hin as [-> | [-> | Hin]].
    + apply Qle_trans with (Qmax c a); [apply Q.le_max_l | apply IH; now left].
    + apply Qle_trans with (Qmax v c); [apply Q.le_max_r | apply IH; now left].
    + apply IH. now right.
Qed.

Lemma np_min_spec a :
  concat a <> [] ->
  exists mn, np_min a = Ok mn /\ In mn (concat a) /\
             forall v, In v (concat a) -> (mn <= v)%Q.
Proof.
  intros Hne. unfold np_min. destruct (concat a) as [| v vs]; [contradiction |].
  exists (fold_left Qmin vs v). split; [reflexivity |].
  split; [apply fold_min_In | apply fold_min_le].
Qed.

Lemma np_max_spec a :
  concat a <> [] ->
  exists mx, np_max a = Ok mx /\ In mx (concat a) /\
             forall v, In v (concat a) -> (v <= mx)%Q.
Proof.
  intros Hne. unfold np_max. destruct (concat a) as [| v vs]; [contradiction |].
  exists (fold_left Qmax vs v). split; [reflexivity |].
  split; [apply fold_max_In | apply fold_max_ge].
Qed.

Lemma normalize_unfold {G : Type} a mn mx (g : G) :
  np_min a = Ok mn -> np_max a = Ok mx ->
  normalize a g =
  (Ok (if Qlt_le_dec 0 (mx - mn)
       then map (map (fun v => ((v - mn) / (mx - mn))%Q)) a
       else map (map (fun _ => 1 # 2)) a), g).
Proof.
  intros Hmin Hmax. unfold normalize, bind, lift. rewrite Hmin, Hmax.
  destruct (Qlt_le_dec 0 (mx - mn)); reflexivity.
Qed.

Lemma rescaled_in_unit v mn mx :
  (mn <= v)%Q -> (v <= mx)%Q -> (0 < mx - mn)%Q ->
  (0 <= (v - mn) / (mx - mn) <= 1)%Q.
Proof.
  intros Hlo Hhi Hpos. split.
  - apply Qle_shift_div_l; [assumption | lra].
  - apply Qle_shift_div_r; [assumption | lra].
Qed.

Lemma float_margin_twice : (2 * float_margin < float_overflow)%Q.
Proof. vm_compute. reflexivity. Qed.

Lemma float_margin_overflow : (float_margin < float_overflow)%Q.
Proof. vm_compute. reflexivity. Qed.


Lemma spread_in_range_example : spread_in_range [[1 # 1; 3 # 1]; [2 # 1; -1 # 1]].
Proof.
  intros v w Hv Hw. simpl in Hv, Hw.
  repeat (destruct Hv as [<- | Hv]); try contradiction;
    repeat (destruct Hw as [<- | Hw]); try contradiction;
    vm_compute; reflexivity.
Qed.


(** ** The same expressions on float64 *)

Module Float64_facts.

Import PrimFloat.
Local Open Scope float_scope.

(** On float64, [lerp] at weight 1 need not return [b]:
    [lerp(1.0, 0.1, 1.0)] is 0.09999999999999998. *)
Example lerp_weight_one : Float64.lerp 1 0x1.999999999999ap-4 1 = 0x1.9999999999998p-4.
Proof. vm_compute. reflexivity. Qed.

(** On float64, [fade] is not monotone between neighbouring numbers and
    can exceed 1 below 1. *)
Example fade_not_monotone :
  (0x1.4d9d98184b9dap-1 <? 0x1.4d9d98184b9dbp-1) = true /\
  (Float64.fade 0x1.4d9d98184b9dbp-1 <? Float64.fade 0x1.4d9d98184b9dap-1) = true.
Proof. split; vm_compute; reflexivity. Qed.

Example fade_above_one :
  (0x1.ffffff8p-1 <? 1) = true /\ (1 <? Float64.fade 0x1.ffffff8p-1) = true.
Proof. split; vm_compute; reflexivity. Qed.


End Float64_facts.

(** In exact arithmetic too, the raw values of the pixels [(0, 1)] and
    [(2, 1)] for these parameters ([persistence] is the float64 nearest to
    1.7e308) are further apart than float64 can represent. *)
Example spread_overflow_reachable :
  (float_overflow
   <= pixel_val (G := MT19937.state) 2 (inject_Z (0x1e42d130773b76 * 2 ^ 971)) 2 3 28 0 1
      - pixel_val (G := MT19937.state) 2 (inject_Z (0x1e42d130773b76 * 2 ^ 971)) 2 3 28 2 1)%Q.
Proof. vm_compute. discriminate. Qed.

Example normalize_example (g : MT19937.state) :
  np_min [[1 # 1; 3 # 1]; [2 # 1; -1 # 1]] = Ok (-1 # 1) /\
  np_max [[1 # 1; 3 # 1]; [2 # 1; -1 # 1]] = Ok (3 # 1) /\
  normalize [[1 # 1; 3 # 1]; [2 # 1; -1 # 1]] g
  = (Ok [[2 # 4; 4 # 4]; [3 # 4; 0 # 4]], g) /\
  normalize [[7 # 3; 7 # 3]] g = (Ok [[1 # 2; 1 # 2]], g).
Proof. repeat split. Qed.

(** ** Parameters outside the documented domain *)

Section InvalidParameters.

Context {G : Type} `{PRNG G}.

Variables (width height octaves : Z) (persistence lacunarity scale : Q) (seed : Z).

Lemma raw_noise_map_negative g :
  width < 0 \/ height < 0 ->
  raw_noise_map width height octaves persistence lacunarity scale seed g
  = (Raise ValueError, g).
Proof.
  intros Hneg. unfold raw_noise_map, bind, lift.
  rewrite np_zeros_negative by tauto. reflexivity.
Qed.

Lemma raw_noise_map_no_cells g :
  0 <= width -> 0 <= height -> width = 0 \/ height = 0 ->
  raw_noise_map width height octaves persistence lacunarity scale seed g
  = (Ok (zeros height width), g).
Proof.
  intros Hw Hh Hzero. unfold raw_noise_map, bind at 1, lift.
  rewrite np_zeros_nonneg by assumption.
  apply foldM_fixed. intros y g1 Hin.
  apply In_range in Hin.
  assert (width = 0) as -> by lia.
  reflexivity.
Qed.

Lemma concat_zeros_no_cells :
  width = 0 \/ height = 0 -> concat (zeros height width) = [].
Proof.
  intros [-> | ->]; unfold zeros; simpl; [| reflexivity].
  induction (Z.to_nat height) as [| n IH]; simpl; [reflexivity | exact IH].
Qed.

Lemma set_cell_zeros y x :
  0 <= y < height -> 0 <= x < width ->
  set_cell (zeros height width) y x 0%Q = zeros height width.
Proof.
  intros Hy Hx. unfold set_cell, zeros.
  rewrite lookup_replicate_2 by lia.
  rewrite (list_insert_id (replicate (Z.to_nat width) 0%Q))
    by (apply lookup_replicate_2; lia).
  apply list_insert_id, lookup_replicate_2. lia.
Qed.

Lemma raw_noise_map_no_octaves g :
  0 < width -> 0 < height -> octaves < 1 ->
  raw_noise_map width height octaves persistence lacunarity scale seed g
  = (Ok (zeros height width), g).
Proof.
  intros Hw Hh Hoct. unfold raw_noise_map, bind at 1, lift.
  rewrite np_zeros_nonneg by lia.
  apply foldM_fixed. intros y g1 Hy. apply In_range in Hy. unfold row_step.
  apply foldM_fixed. intros x g2 Hx. apply In_range in Hx.
  unfold pixel_step, pixel_value. rewrite range_nonpos by lia.
  unfold foldM, bind, ret, lift.
  rewrite (np_setitem_in_range height width) by (auto using shape_zeros).
  now rewrite set_cell_zeros.
Qed.

Lemma In_concat_zeros v : In v (concat (zeros height width)) -> v = 0%Q.
Proof.
  intros Hin. apply in_concat in Hin. destruct Hin as (row & Hrow & Hv).
  unfold zeros in Hrow.
  apply list_elem_of_In, elem_of_replicate in Hrow. destruct Hrow as [-> _].
  apply list_elem_of_In, elem_of_replicate in Hv. now destruct Hv.
Qed.

Lemma concat_zeros_cells :
  0 < width -> 0 < height -> concat (zeros height width) <> [].
Proof.
  intros Hw Hh E.
  assert (Hin : In 0%Q (concat (zeros height width))).
  { apply in_concat. exists (replicate (Z.to_nat width) 0%Q).
    split; apply list_elem_of_In, elem_of_replicate; split; try reflexivity; lia. }
  rewrite E in Hin. contradiction.
Qed.

Lemma normalize_zeros (g : G) :
  0 < width -> 0 < height ->
  normalize (zeros height width) g
  = (Ok (replicate (Z.to_nat height) (replicate (Z.to_nat width) (1 # 2))), g).
Proof.
  intros Hw Hh.
  destruct (np_min_spec _ (concat_zeros_cells Hw Hh)) as (mn & Hmin & Hmn & _).
  destruct (np_max_spec _ (concat_zeros_cells Hw Hh)) as (mx & Hmax & Hmx & _).
  apply In_concat_zeros in Hmn, Hmx. subst mn mx.
  rewrite (normalize_unfold _ _ _ g Hmin Hmax). simpl. f_equal. f_equal.
  unfold zeros.
  change (map (map (fun _ : Q => 1 # 2)))
    with (fmap (M := list) (fmap (M := list) (fun _ : Q => 1 # 2))).
  now rewrite !fmap_replicate.
Qed.

Lemma raw_noise_map_zero_scale g :
  0 < width -> 0 < height -> 1 <= octaves -> (scale == 0)%Q ->
  raw_noise_map width height octaves persistence lacunarity scale seed g
  = (Raise ZeroDivisionError, g).
Proof.
  intros Hw Hh Hoct Hscale. unfold raw_noise_map, bind at 1, lift.
  rewrite np_zeros_nonneg by lia.
  rewrite (range_pos height) by assumption. cbn [foldM].
  apply bind_raise. unfold row_step.
  rewrite (range_pos width) by assumption. cbn [foldM].
  apply bind_raise. unfold pixel_step.
  apply bind_raise. unfold pixel_value.
  rewrite (range_pos octaves) by lia. cbn [foldM].
  apply bind_raise. unfold octave_step, bind, lift.
  rewrite make_amplitudes_config_map.
  rewrite (py_index_in_range _ 0 _ ltac:(lia)
             (lookup_map_range _ octaves 0 ltac:(lia))).
  now rewrite py_div_zero.
Qed.

End InvalidParameters.

(** C6, as the code has it.  [generate_perlin_noise] validates nothing
    and has no [InvalidParameter] error.  On parameters outside the
    documented domain it never draws from the generator, and: a negative
    [width] or [height] raises [ValueError] (the allocation); [octaves < 1]
    on a positive size raises nothing and returns the field whose cells are
    all 0.5; and, when no power [lacunarity ** i] or [persistence ** i] for
    [i < octaves] overflows float64, a zero [width] or [height] raises
    [ValueError] (the minimum of an array without cells) and [scale = 0] with
    [octaves >= 1] on a positive size raises [ZeroDivisionError] at the first
    pixel. *)
Theorem invalid_parameters_outcome {G : Type} `{PRNG G}
    (width height octaves : Z) (persistence lacunarity scale : Q) (seed : Z) (g : G) :
  width <= 0 \/ height <= 0 \/ octaves < 1 \/ (scale == 0)%Q ->
  snd (generate_perlin_noise width height octaves persistence lacunarity scale seed g)
  = g /\
  (width < 0 \/ height < 0 ->
   fst (generate_perlin_noise width height octaves persistence lacunarity scale seed g)
   = Raise ValueError) /\
  (0 < width -> 0 < height -> octaves < 1 ->
   fst (generate_perlin_noise width height octaves persistence lacunarity scale seed g)
   = Ok (replicate (Z.to_nat height) (replicate (Z.to_nat width) (1 # 2)))) /\
  (powers_in_range octaves persistence lacunarity ->
   (0 <= width -> 0 <= height -> width = 0 \/ height = 0 ->
    fst (generate_perlin_noise width height octaves persistence lacunarity scale seed g)
    = Raise ValueError) /\
   (0 < width -> 0 < height -> 1 <= octaves -> (scale == 0)%Q ->
    fst (generate_perlin_noise width height octaves persistence lacunarity scale seed g)
    = Raise ZeroDivisionError)).
Proof.
  intros Hinvalid.
  assert (Hdims :
    width <= 0 \/ height <= 0 ->
    generate_perlin_noise width height octaves persistence lacunarity scale seed g
    = (Raise ValueError, g)).
  { intros Hd. unfold generate_perlin_noise.
    destruct (Z_lt_le_dec width 0) as [Hwn | Hw].
    { apply bind_raise, raw_noise_map_negative. now left. }
    destruct (Z_lt_le_dec height 0) as [Hhn | Hh].
    { apply bind_raise, raw_noise_map_negative. now right. }
    assert (Hz : width = 0 \/ height = 0) by lia.
    rewrite (bind_ok _ _ _ _ _
               (raw_noise_map_no_cells width height octaves persistence lacunarity
                  scale seed g Hw Hh Hz)).
    unfold normalize, bind, lift, np_min.
    now rewrite concat_zeros_no_cells. }
  assert (Hoct :
    0 < width -> 0 < height -> octaves < 1 ->
    generate_perlin_noise width height octaves persistence lacunarity scale seed g
    = (Ok (replicate (Z.to_nat height) (replicate (Z.to_nat width) (1 # 2))), g)).
  { intros Hw Hh Ho. unfold generate_perlin_noise.
    rewrite (bind_ok _ _ _ _ _
               (raw_noise_map_no_octaves width height octaves persistence lacunarity
                  scale seed g Hw Hh Ho)).
    now apply normalize_zeros. }
  assert (Hscale :
    0 < width -> 0 < height -> 1 <= octaves -> (scale == 0)%Q ->
    generate_perlin_noise width height octaves persistence lacunarity scale seed g
    = (Raise ZeroDivisionError, g)).
  { intros Hw Hh Ho Hs. unfold generate_perlin_noise.
    apply bind_raise. now apply raw_noise_map_zero_scale. }
  split; [| split; [| split; [| intros _; split]]].
  - destruct (Z_lt_le_dec 0 width) as [Hw | Hw]; [| rewrite Hdims by tauto; reflexivity].
    destruct (Z_lt_le_dec 0 height) as [Hh | Hh]; [| rewrite Hdims by tauto; reflexivity].
    destruct (Z_lt_le_dec octaves 1) as [Ho | Ho]; [rewrite Hoct by assumption; reflexivity |].
    destruct Hinvalid as [Hc | [Hc | [Hc | Hc]]]; try lia.
    rewrite Hscale by assumption. reflexivity.
  - intros Hd. rewrite Hdims by lia. reflexivity.
  - intros Hw Hh Ho. now rewrite Hoct.
  - intros Hw Hh Hz. rewrite Hdims by lia. reflexivity.
  - intros Hw Hh Ho Hs. now rewrite Hscale.
Qed.

Lemma invalid_parameters_outcome_witness :
  (1 <= 0 \/ 1 <= 0 \/ 1 < 1 \/ (0 == 0)%Q) /\
  powers_in_range 1 (1 # 2) 2 /\
  generate_perlin_noise 1 1 1 (1 # 2) 2 0 0 (MT19937.seed 7)
  = (Raise ZeroDivisionError, MT19937.seed 7).
Proof.
  assert (Hinvalid : 1 <= 0 \/ 1 <= 0 \/ 1 < 1 \/ (0 == 0)%Q)
    by (right; right; right; reflexivity).
  assert (Hpowers : powers_in_range 1 (1 # 2) 2).
  { intros i Hi. assert (i = 0) as -> by lia. split; vm_compute; reflexivity. }
  split; [exact Hinvalid |]. split; [exact Hpowers |].
  destruct (invalid_parameters_outcome 1 1 1 (1 # 2) 2 0 0 (MT19937.seed 7) Hinvalid)
    as (Hstate & _ & _ & Hrange).
  destruct (Hrange Hpowers) as [_ Hzero].
  apply injective_projections.
  - apply Hzero; try lia. reflexivity.
  - exact Hstate.
Defined.

(** C6 as stated fails: with [octaves = 0] the call raises nothing and
    returns a field. *)
Lemma invalid_parameter_rejection_counterexample :
  ~ (forall (width height octaves : Z) (persistence lacunarity scale : Q) (seed : Z)
            (g : MT19937.state),
        width <= 0 \/ height <= 0 \/ octaves < 1 \/ (scale == 0)%Q ->
        exists e,
          fst (generate_perlin_noise width height octaves persistence lacunarity
                 scale seed g) = Raise e).
Proof.
  intros Hreject.
  destruct (Hreject 1 1 0 (1 # 2) (2 # 1) (30 # 1) 0 (MT19937.seed 7)) as (e & He).
  - right. right. left. lia.
  - vm_compute in He. discriminate.
Qed.

(** ** Sample points on the integer lattice *)

Section Lattice.

Context {G : Type} `{PRNG G}.

Lemma octave_val_lattice sample_x sample_y seed a b :
  (sample_x == inject_Z a)%Q -> (sample_y == inject_Z b)%Q ->
  (octave_val sample_x sample_y seed == 0)%Q.
Proof.
  intros Hx Hy. unfold octave_val. cbv zeta.
  rewrite (Qfloor_comp _ _ Hx), (Qfloor_comp _ _ Hy), !Qfloor_Z.
  unfold lerp, fade, gradient_val.
  rewrite Hx, Hy. ring.
Qed.

Lemma sample_coord_origin scale frequency :
  (sample_coord 0 scale frequency == 0)%Q.
Proof. unfold sample_coord, Qdiv. change (inject_Z 0) with 0%Q. ring. Qed.

Lemma octave_draws_compat seed sample_x sample_y sample_x' sample_y' :
  (sample_x == sample_x')%Q -> (sample_y == sample_y')%Q ->
  octave_draws seed sample_x sample_y -> octave_draws seed sample_x' sample_y'.
Proof.
  intros Hx Hy. unfold octave_draws.
  now rewrite (Qfloor_comp _ _ Hx), (Qfloor_comp _ _ Hy).
Qed.

Lemma pixel_draws_origin seed octaves lacunarity scale :
  octave_draws seed 0 0 -> pixel_draws seed octaves lacunarity scale 0 0.
Proof.
  intros Hdraws i _.
  apply (octave_draws_compat seed 0%Q 0%Q); try assumption;
    symmetry; apply sample_coord_origin.
Qed.

Lemma fold_left_zero (f : Z -> Q) (l : list Z) :
  (forall i, (f i == 0)%Q) ->
  forall b, (b == 0)%Q -> (fold_left (fun acc i => (acc + f i)%Q) l b == 0)%Q.
Proof.
  intros Hf. induction l as [| i l IH]; intros b Hb; simpl; [assumption |].
  apply IH. rewrite Hb, Hf. ring.
Qed.

Lemma pixel_val_origin octaves persistence lacunarity scale seed :
  (pixel_val octaves persistence lacunarity scale seed 0 0 == 0)%Q.
Proof.
  unfold pixel_val. apply fold_left_zero; [| reflexivity].
  intros i.
  rewrite (octave_val_lattice _ _ seed 0 0)
    by (change (inject_Z 0) with 0%Q; apply sample_coord_origin).
  ring.
Qed.

End Lattice.

(** C10. An octave evaluated at a sample point with integer coordinates
    returns exactly 0, and the value accumulated for pixel [(0, 0)] is exactly
    0 for every seed, number of octaves, persistence, lacunarity and non-zero
    scale (provided the draws of the cells involved return). *)
Theorem lattice_points_are_zero {G : Type} `{PRNG G} `{!PRNGLaws G}
    (seed a b octaves : Z) (sample_x sample_y persistence lacunarity scale : Q)
    (g : G) :
  (sample_x == inject_Z a)%Q -> (sample_y == inject_Z b)%Q ->
  octave_draws seed sample_x sample_y ->
  octave_draws seed 0 0 ->
  ~ (scale == 0)%Q ->
  (exists v g', octave_value sample_x sample_y seed g = (Ok v, g') /\ (v == 0)%Q) /\
  (exists v g',
      pixel_value (make_amplitudes_config octaves persistence lacunarity)
                  octaves scale seed 0 0 g = (Ok v, g') /\ (v == 0)%Q).
Proof.
  intros Hx Hy Hdraws Horigin Hscale. split.
  - destruct (octave_value_returns sample_x sample_y seed g Hdraws) as (g' & Hrun).
    exists (octave_val sample_x sample_y seed), g'.
    split; [exact Hrun | now apply (octave_val_lattice _ _ _ a b)].
  - destruct (pixel_value_returns octaves persistence lacunarity scale seed 0 0 g
                Hscale (pixel_draws_origin seed octaves lacunarity scale Horigin))
      as (g' & Hrun).
    exists (pixel_val octaves persistence lacunarity scale seed 0 0), g'.
    split; [exact Hrun | apply pixel_val_origin].
Qed.

Lemma lattice_points_are_zero_witness :
  ((6 # 2) == inject_Z 3)%Q /\ ((-2 # 1) == inject_Z (-2))%Q /\
  octave_draws (G := MT19937.state) 5 (6 # 2) (-2 # 1) /\
  octave_draws (G := MT19937.state) 5 0 0 /\
  ~ (30 == 0)%Q /\
  (exists v g', octave_value (6 # 2) (-2 # 1) 5 (MT19937.seed 0) = (Ok v, g')
                /\ (v == 0)%Q) /\
  (exists v g',
      pixel_value (make_amplitudes_config 3 (1 # 2) 2) 3 30 5 0 0 (MT19937.seed 0)
      = (Ok v, g') /\ (v == 0)%Q).
Proof.
  assert (Hx : ((6 # 2) == inject_Z 3)%Q) by reflexivity.
  assert (Hy : ((-2 # 1) == inject_Z (-2))%Q) by reflexivity.
  assert (Hd : octave_draws (G := MT19937.state) 5 (6 # 2) (-2 # 1))
    by (apply octave_drawsb_draws; vm_compute; reflexivity).
  assert (Ho : octave_draws (G := MT19937.state) 5 0 0)
    by (apply octave_drawsb_draws; vm_compute; reflexivity).
  assert (Hs : ~ (30 == 0)%Q) by discriminate.
  split; [exact Hx |]. split; [exact Hy |]. split; [exact Hd |].
  split; [exact Ho |]. split; [exact Hs |].
  exact (lattice_points_are_zero 5 3 (-2) 3 (6 # 2) (-2 # 1) (1 # 2) 2 30
           (MT19937.seed 0) Hx Hy Hd Ho Hs).
Defined.

(** ** The 1x1 scenario *)

Lemma single_cell_array (a : ndarray) v :
  shape 1 1 a -> cell a 0 0 = Some v -> a = [[v]].
Proof.
  intros [Hlen Hrows] Hcell. unfold cell in Hcell.
  destruct a as [| row [| row' a]]; try discriminate.
  simpl in Hcell. inversion Hrows as [| ? ? Hrow _]; subst.
  destruct row as [| c [| c' row]]; try discriminate.
  simpl in Hcell. now inversion Hcell.
Qed.

Lemma normalize_single_cell {G : Type} v (g : G) :
  normalize [[v]] g = (Ok [[1 # 2]], g).
Proof.
  rewrite (normalize_unfold [[v]] v v g eq_refl eq_refl).
  destruct (Qlt_le_dec 0 (v - v)) as [Hpos | _]; [| reflexivity].
  exfalso. assert (E : (v - v == 0)%Q) by ring.
  rewrite E in Hpos. exact (Qlt_irrefl _ Hpos).
Qed.

(** C7. With CPython's generator, [width = 1], [height = 1],
    [octaves = 1], [seed = 0] and any persistence, lacunarity and non-zero
    scale: the pixel loops return a one-cell field (no failure at the corner
    lookups), its minimum and maximum are that one cell, so [max - min] is
    zero and the field becomes [[0.5]], which classifies as [[1]]; and
    [generate_world] with [seed = 0] and [size = 1] returns the tiles
    [[1]]. *)
Theorem single_cell_scenario (persistence lacunarity scale : Q) (g : MT19937.state) :
  ~ (scale == 0)%Q ->
  exists v g',
    raw_noise_map 1 1 1 persistence lacunarity scale 0 g = (Ok [[v]], g') /\
    np_min [[v]] = Ok v /\ np_max [[v]] = Ok v /\ (v - v == 0)%Q /\
    generate_perlin_noise 1 1 1 persistence lacunarity scale 0 g
    = (Ok [[1 # 2]], g') /\
    classify [[1 # 2]] = [[1]] /\
    fst (generate_world 0 1 g) = Ok (mkWorld 1 [[1]]).
Proof.
  intros Hscale.
  assert (Hdraws : field_draws (G := MT19937.state) 1 1 1 lacunarity scale 0).
  { intros x y Hx Hy. assert (x = 0) as -> by lia. assert (y = 0) as -> by lia.
    apply pixel_draws_origin, octave_drawsb_draws. vm_compute. reflexivity. }
  destruct (raw_noise_map_returns 1 1 1 persistence lacunarity scale 0 Hscale g
              ltac:(lia) ltac:(lia) Hdraws) as (g' & Hraw).
  pose proof (single_cell_array _ _
                (shape_raw_val 1 1 1 persistence lacunarity scale 0)
                (cell_raw_val 1 1 1 persistence lacunarity scale 0 0 0
                   ltac:(lia) ltac:(lia))) as Hcells.
  rewrite Hcells in Hraw.
  eexists. exists g'. split; [exact Hraw |].
  split; [reflexivity |]. split; [reflexivity |].
  split; [ring |]. split; [| split; [reflexivity |]].
  - unfold generate_perlin_noise. rewrite (bind_ok _ _ _ _ _ Hraw).
    apply normalize_single_cell.
  - vm_compute. reflexivity.
Qed.

Lemma single_cell_scenario_witness :
  ~ (30 == 0)%Q /\
  exists v g',
    raw_noise_map 1 1 1 (1 # 2) 2 30 0 (MT19937.seed 42) = (Ok [[v]], g') /\
    np_min [[v]] = Ok v /\ np_max [[v]] = Ok v /\ (v - v == 0)%Q /\
    generate_perlin_noise 1 1 1 (1 # 2) 2 30 0 (MT19937.seed 42)
    = (Ok [[1 # 2]], g') /\
    classify [[1 # 2]] = [[1]] /\
    fst (generate_world 0 1 (MT19937.seed 42)) = Ok (mkWorld 1 [[1]]).
Proof.
  assert (Hs : ~ (30 == 0)%Q) by discriminate.
  split; [exact Hs |].
  exact (single_cell_scenario (1 # 2) 2 30 (MT19937.seed 42) Hs).
Defined.

(** ** The raw field and its reference definition *)



(** The reference sum on CPython's generator, at pixel [(1, 0)] of a field
    with two octaves. *)
Example spec_raw_example :
  Qred (spec_raw (G := MT19937.state) 2 (1 # 2) 2 (3 # 2) 5 1 0) = 2 # 243.
Proof. vm_compute. reflexivity. Qed.

(** * Further properties of the code *)

(** ** Inversion of computations that return *)

Lemma bind_ok_inv {G A B} (m : Py G A) (f : A -> Py G B) g b g' :
  (x <- m ;; f x) g = (Ok b, g') ->
  exists a g1, m g = (Ok a, g1) /\ f a g1 = (Ok b, g').
Proof.
  unfold bind. destruct (m g) as [[a | e |] g1]; try discriminate.
  intros Hf. now exists a, g1.
Qed.

Lemma lift_ok_inv {G A} (r : result A) (g : G) a g' :
  lift r g = (Ok a, g') -> r = Ok a /\ g' = g.
Proof. unfold lift. intros E. now inversion E. Qed.

Lemma ret_ok_inv {G A} (a : A) (g : G) b g' :
  ret a g = (Ok b, g') -> b = a /\ g' = g.
Proof. unfold ret. intros E. now inversion E. Qed.

(** A loop that returns keeps an invariant that each returning iteration
    keeps. *)
Lemma foldM_ok_inv {G A B} (I : B -> Prop) (f : B -> A -> Py G B) (l : list A) :
  (forall a b g b' g', In a l -> I b -> f b a g = (Ok b', g') -> I b') ->
  forall b g b' g', I b -> foldM f b l g = (Ok b', g') -> I b'.
Proof.
  induction l as [| a l IH]; intros Hf b g b' g' Hb Hrun; simpl in Hrun.
  - apply ret_ok_inv in Hrun. destruct Hrun as [-> _]. exact Hb.
  - apply bind_ok_inv in Hrun. destruct Hrun as (b1 & g1 & Hstep & Hrest).
    apply (IH (fun a' b0 g0 b2 g2 Hin => Hf a' b0 g0 b2 g2 (or_intror Hin))
              b1 g1 b' g'); [| exact Hrest].
    exact (Hf a b g b1 g1 (or_introl eq_refl) Hb Hstep).
Qed.

Lemma py_index_ok_In {A} (l : list A) i a : py_index l i = Ok a -> In a l.
Proof.
  unfold py_index. destruct (norm_index (length l) i) as [j | e |]; try discriminate.
  destruct (l !! j) as [a' |] eqn:Hl; try discriminate.
  intros E. inversion E; subst.
  apply list_elem_of_In. eapply list_elem_of_lookup_2. eassumption.
Qed.

(** ** Interpolation *)

Lemma lerp_convex a b x : (lerp a b x == (1 - x) * a + x * b)%Q.
Proof. unfold lerp. ring. Qed.

Lemma lerp_bounds lo hi a b x :
  (lo <= a <= hi)%Q -> (lo <= b <= hi)%Q -> (0 <= x <= 1)%Q ->
  (lo <= lerp a b x <= hi)%Q.
Proof.
  intros [Ha1 Ha2] [Hb1 Hb2] [Hx0 Hx1].
  assert (H1 : (0 <= (1 - x) * (a - lo))%Q) by (apply Qmult_le_0_compat; lra).
  assert (H2 : (0 <= x * (b - lo))%Q) by (apply Qmult_le_0_compat; lra).
  assert (H3 : (0 <= (1 - x) * (hi - a))%Q) by (apply Qmult_le_0_compat; lra).
  assert (H4 : (0 <= x * (hi - b))%Q) by (apply Qmult_le_0_compat; lra).
  assert (E1 : (lerp a b x - lo == (1 - x) * (a - lo) + x * (b - lo))%Q)
    by (unfold lerp; ring).
  assert (E2 : (hi - lerp a b x == (1 - x) * (hi - a) + x * (hi - b))%Q)
    by (unfold lerp; ring).
  split; lra.
Qed.

(** ** The fade curve *)

Lemma fade_monotone a b : (a <= b)%Q -> (fade a <= fade b)%Q.
Proof.
  intros Hab.
  set (q0 := (a - a * a)%Q).
  set (q1 := ((b - a) * (1 - 2 * a))%Q).
  set (q2 := (- ((b - a) * (b - a)))%Q).
  assert (E : (fade b - fade a ==
               30 * (b - a) * ((q0 + q1 * (1 # 2) + q2 * (1 # 3)) ^ 2
                               + (1 # 12) * (q1 + q2) ^ 2 + (1 # 180) * q2 ^ 2))%Q).
  { unfold fade, q0, q1, q2. ring. }
  pose proof (Qsqr_nonneg (q0 + q1 * (1 # 2) + q2 * (1 # 3))).
  pose proof (Qsqr_nonneg (q1 + q2)).
  pose proof (Qsqr_nonneg q2).
  assert (0 <= fade b - fade a)%Q.
  { rewrite E. apply Qmult_le_0_compat; lra. }
  lra.
Qed.

Lemma fade_0 : (fade 0 == 0)%Q.
Proof. reflexivity. Qed.

Lemma fade_1 : (fade 1 == 1)%Q.
Proof. reflexivity. Qed.

Lemma fade_half : (fade (1 # 2) == 1 # 2)%Q.
Proof. reflexivity. Qed.

Lemma fade_unit t : (0 <= t <= 1)%Q -> (0 <= fade t <= 1)%Q.
Proof.
  intros [H0 H1]. split.
  - rewrite <- fade_0. now apply fade_monotone.
  - rewrite <- fade_1. now apply fade_monotone.
Qed.

(** ** The range of the noise *)

Lemma gradient_ok_vector {G : Type} `{PRNG G} ix iy x y seed (g : G) n g' :
  gradient ix iy x y seed g = (Ok n, g') ->
  exists gx gy,
    In (gx, gy) gradients /\
    n = (inject_Z gx * (x - inject_Z ix) + inject_Z gy * (y - inject_Z iy))%Q.
Proof.
  rewrite gradient_unfold.
  destruct (rng_randint 0 7 _) as [[k | e |] g1]; try discriminate.
  destruct (py_index gradients k) as [[gx gy] | e |] eqn:Hidx; try discriminate.
  intros E. inversion E; subst. exists gx, gy.
  split; [now apply py_index_ok_In in Hidx | reflexivity].
Qed.

Lemma table_dot_bound gx gy dx dy bx by_ :
  In (gx, gy) gradients ->
  (- bx <= dx <= bx)%Q -> (- by_ <= dy <= by_)%Q ->
  (- (bx + by_) <= inject_Z gx * dx + inject_Z gy * dy <= bx + by_)%Q.
Proof.
  intros Hin Hx Hy. simpl in Hin.
  repeat (destruct Hin as [E | Hin];
          [inversion E; subst; unfold inject_Z; split; lra |]).
  contradiction.
Qed.

(** X3. Whatever the generator does, a value returned by [gradient] is the
    dot product of one of the eight table vectors with the displacement
    [(x - ix, y - iy)], so its magnitude is at most [|x - ix| + |y - iy|]. *)
Theorem gradient_value_bounded {G : Type} `{PRNG G}
    (ix iy : Z) (x y : Q) (seed : Z) (g : G) (n : Q) (g' : G) :
  gradient ix iy x y seed g = (Ok n, g') ->
  (exists gx gy,
      In (gx, gy) gradients /\
      n = (inject_Z gx * (x - inject_Z ix) + inject_Z gy * (y - inject_Z iy))%Q) /\
  (Qabs n <= Qabs (x - inject_Z ix) + Qabs (y - inject_Z iy))%Q.
Proof.
  intros Hrun.
  destruct (gradient_ok_vector _ _ _ _ _ _ _ _ Hrun) as (gx & gy & Hin & ->).
  split; [now exists gx, gy |].
  apply Qabs_Qle_condition.
  apply table_dot_bound; [assumption | |];
    apply Qabs_Qle_condition, Qle_refl.
Qed.

Lemma frac_unit q : (0 <= q - inject_Z (Qfloor q) < 1)%Q.
Proof.
  pose proof (Qfloor_le q) as Hlo. pose proof (Qlt_floor q) as Hhi.
  rewrite inject_Z_plus in Hhi. change (inject_Z 1) with 1%Q in Hhi.
  split; lra.
Qed.

(** The weighted sum behind the bound: [t + fade(t) (1 - 2t)] is at most
    1/2 on [[0, 1]]. *)
Lemma fade_blend_half t :
  (0 <= t <= 1)%Q -> (t + fade t * (1 - 2 * t) <= 1 # 2)%Q.
Proof.
  intros [H0 H1].
  assert (E : ((1 # 2) - (t + fade t * (1 - 2 * t))
               == 2 * ((1 # 2) - t) * ((1 # 2) - fade t))%Q) by ring.
  assert (Hprod : (0 <= ((1 # 2) - t) * ((1 # 2) - fade t))%Q).
  { destruct (Qlt_le_dec t (1 # 2)) as [Hlt | Hge].
    - assert (fade t <= fade (1 # 2))%Q by (apply fade_monotone; lra).
      rewrite fade_half in *. apply Qmult_le_0_compat; lra.
    - assert (fade (1 # 2) <= fade t)%Q by (now apply fade_monotone).
      rewrite fade_half in *.
      assert (E2 : (((1 # 2) - t) * ((1 # 2) - fade t)
                    == (t - (1 # 2)) * (fade t - (1 # 2)))%Q) by ring.
      rewrite E2. apply Qmult_le_0_compat; lra. }
  lra.
Qed.

Lemma bilinear_bound a b s t n0 n1 n2 n3 :
  (0 <= a <= 1)%Q -> (0 <= b <= 1)%Q -> (0 <= s <= 1)%Q -> (0 <= t <= 1)%Q ->
  (n0 <= a + b)%Q -> (n1 <= (1 - a) + b)%Q ->
  (n2 <= a + (1 - b))%Q -> (n3 <= (1 - a) + (1 - b))%Q ->
  (lerp (lerp n0 n1 s) (lerp n2 n3 s) t
   <= (a + s * (1 - 2 * a)) + (b + t * (1 - 2 * b)))%Q.
Proof.
  intros Ha Hb Hs Ht H0 H1 H2 H3.
  assert (W0 : (0 <= (1 - t) * (1 - s) * (a + b - n0))%Q)
    by (repeat apply Qmult_le_0_compat; lra).
  assert (W1 : (0 <= (1 - t) * s * ((1 - a) + b - n1))%Q)
    by (repeat apply Qmult_le_0_compat; lra).
  assert (W2 : (0 <= t * (1 - s) * (a + (1 - b) - n2))%Q)
    by (repeat apply Qmult_le_0_compat; lra).
  assert (W3 : (0 <= t * s * ((1 - a) + (1 - b) - n3))%Q)
    by (repeat apply Qmult_le_0_compat; lra).
  assert (E : ((a + s * (1 - 2 * a)) + (b + t * (1 - 2 * b))
               - lerp (lerp n0 n1 s) (lerp n2 n3 s) t
               == (1 - t) * (1 - s) * (a + b - n0)
                  + (1 - t) * s * ((1 - a) + b - n1)
                  + t * (1 - s) * (a + (1 - b) - n2)
                  + t * s * ((1 - a) + (1 - b) - n3))%Q)
    by (unfold lerp; ring).
  lra.
Qed.

Lemma octave_ok_bound {G : Type} `{PRNG G} sample_x sample_y seed (g : G) v g' :
  octave_value sample_x sample_y seed g = (Ok v, g') -> (-1 <= v <= 1)%Q.
Proof.
  unfold octave_value. intros Hrun.
  apply bind_ok_inv in Hrun. destruct Hrun as (n0 & g0 & H0 & Hrun).
  apply bind_ok_inv in Hrun. destruct Hrun as (n1 & g1 & H1 & Hrun).
  apply bind_ok_inv in Hrun. destruct Hrun as (n2 & g2 & H2 & Hrun).
  apply bind_ok_inv in Hrun. destruct Hrun as (n3 & g3 & H3 & Hrun).
  apply ret_ok_inv in Hrun. destruct Hrun as [-> _].
  pose proof (frac_unit sample_x) as Ha. pose proof (frac_unit sample_y) as Hb.
  set (a := (sample_x - inject_Z (Qfloor sample_x))%Q) in *.
  set (b := (sample_y - inject_Z (Qfloor sample_y))%Q) in *.
  assert (Ea : (sample_x - inject_Z (Qfloor sample_x + 1) == a - 1)%Q)
    by (rewrite inject_Z_plus; unfold a; change (inject_Z 1) with 1%Q; ring).
  assert (Eb : (sample_y - inject_Z (Qfloor sample_y + 1) == b - 1)%Q)
    by (rewrite inject_Z_plus; unfold b; change (inject_Z 1) with 1%Q; ring).
  destruct (gradient_ok_vector _ _ _ _ _ _ _ _ H0) as (gx0 & gy0 & Hin0 & E0).
  destruct (gradient_ok_vector _ _ _ _ _ _ _ _ H1) as (gx1 & gy1 & Hin1 & E1).
  destruct (gradient_ok_vector _ _ _ _ _ _ _ _ H2) as (gx2 & gy2 & Hin2 & E2).
  destruct (gradient_ok_vector _ _ _ _ _ _ _ _ H3) as (gx3 & gy3 & Hin3 & E3).
  fold a in E0, E2. fold b in E0, E1.
  assert (B0 : (- (a + b) <= n0 <= a + b)%Q).
  { rewrite E0. apply table_dot_bound; [assumption | |]; lra. }
  assert (B1 : (- ((1 - a) + b) <= n1 <= (1 - a) + b)%Q).
  { rewrite E1, Ea. apply table_dot_bound; [assumption | |]; lra. }
  assert (B2 : (- (a + (1 - b)) <= n2 <= a + (1 - b))%Q).
  { rewrite E2, Eb. apply table_dot_bound; [assumption | |]; lra. }
  assert (B3 : (- ((1 - a) + (1 - b)) <= n3 <= (1 - a) + (1 - b))%Q).
  { rewrite E3, Ea, Eb. apply table_dot_bound; [assumption | |]; lra. }
  assert (Hs : (0 <= fade a <= 1)%Q) by (apply fade_unit; lra).
  assert (Ht : (0 <= fade b <= 1)%Q) by (apply fade_unit; lra).
  pose proof (fade_blend_half a ltac:(lra)) as Hha.
  pose proof (fade_blend_half b ltac:(lra)) as Hhb.
  pose proof (bilinear_bound a b (fade a) (fade b) n0 n1 n2 n3
                ltac:(lra) ltac:(lra) Hs Ht
                ltac:(lra) ltac:(lra) ltac:(lra) ltac:(lra)) as Hup.
  pose proof (bilinear_bound a b (fade a) (fade b) (- n0) (- n1) (- n2) (- n3)
                ltac:(lra) ltac:(lra) Hs Ht
                ltac:(lra) ltac:(lra) ltac:(lra) ltac:(lra)) as Hlow.
  assert (Eopp : (lerp (lerp (- n0) (- n1) (fade a)) (lerp (- n2) (- n3) (fade a))
                       (fade b)
                  == - lerp (lerp n0 n1 (fade a)) (lerp n2 n3 (fade a)) (fade b))%Q)
    by (unfold lerp; ring).
  split; lra.
Qed.

(** X4. Whatever the generator does, a value returned for one octave lies
    in [[-1, 1]]. *)
Theorem octave_value_bounded {G : Type} `{PRNG G}
    (sample_x sample_y : Q) (seed : Z) (g : G) (v : Q) (g' : G) :
  octave_value sample_x sample_y seed g = (Ok v, g') -> (-1 <= v <= 1)%Q.
Proof. apply octave_ok_bound. Qed.

(** Draws of CPython's generator used by the examples below: the four
    corners of cell [(0, 0)] for seed 5, and every corner of a 2x1 field with
    two octaves. *)
Lemma mt19937_cell_draws : octave_draws (G := MT19937.state) 5 0 0.
Proof. apply octave_drawsb_draws. vm_compute. reflexivity. Qed.

Lemma mt19937_field_draws : field_draws (G := MT19937.state) 2 1 2 2 (3 # 2) 5.
Proof. apply field_drawsb_draws. vm_compute. reflexivity. Qed.

Lemma gradient_value_bounded_witness :
  exists n g',
    gradient 0 0 (2 # 3) (1 # 4) 5 (MT19937.seed 0) = (Ok n, g') /\
    (exists gx gy,
        In (gx, gy) gradients /\
        n = (inject_Z gx * ((2 # 3) - inject_Z 0)
             + inject_Z gy * ((1 # 4) - inject_Z 0))%Q) /\
    (Qabs n <= Qabs ((2 # 3) - inject_Z 0) + Qabs ((1 # 4) - inject_Z 0))%Q.
Proof.
  destruct (gradient_returns 0 0 (2 # 3) (1 # 4) 5 (MT19937.seed 0)
              (proj1 mt19937_cell_draws)) as (g' & Hrun).
  exists (gradient_val (G := MT19937.state) 0 0 (2 # 3) (1 # 4) 5), g'.
  split; [exact Hrun |].
  exact (gradient_value_bounded 0 0 (2 # 3) (1 # 4) 5 (MT19937.seed 0) _ g' Hrun).
Defined.

Lemma octave_value_bounded_witness :
  exists v g',
    octave_value (2 # 3) (1 # 4) 5 (MT19937.seed 0) = (Ok v, g') /\
    (-1 <= v <= 1)%Q.
Proof.
  destruct (octave_value_returns (2 # 3) (1 # 4) 5 (MT19937.seed 0)
              mt19937_cell_draws) as (g' & Hrun).
  exists (octave_val (G := MT19937.state) (2 # 3) (1 # 4) 5), g'.
  split; [exact Hrun |].
  exact (octave_value_bounded (2 # 3) (1 # 4) 5 (MT19937.seed 0) _ g' Hrun).
Defined.

Lemma octave_step_ok_inv {G : Type} `{PRNG G} octaves persistence lacunarity scale
    seed x y acc i (g : G) acc' g' :
  0 <= i < octaves ->
  octave_step (make_amplitudes_config octaves persistence lacunarity)
              scale seed x y acc i g = (Ok acc', g') ->
  exists o, (-1 <= o <= 1)%Q /\ acc' = (acc + o * persistence ^ i)%Q.
Proof.
  intros Hi Hrun. unfold octave_step in Hrun.
  apply bind_ok_inv in Hrun. destruct Hrun as (fa & g1 & Hidx & Hrun).
  apply lift_ok_inv in Hidx. destruct Hidx as [Hidx ->].
  rewrite make_amplitudes_config_map in Hidx.
  rewrite (py_index_in_range _ i _ ltac:(lia) (lookup_map_range _ octaves i Hi))
    in Hidx.
  inversion Hidx; subst fa. clear Hidx.
  apply bind_ok_inv in Hrun. destruct Hrun as (xs & g2 & _ & Hrun).
  apply bind_ok_inv in Hrun. destruct Hrun as (ys & g3 & _ & Hrun).
  apply bind_ok_inv in Hrun. destruct Hrun as (o & g4 & Hoct & Hrun).
  apply ret_ok_inv in Hrun. destruct Hrun as [-> _].
  exists o. split; [eapply octave_ok_bound; eassumption | reflexivity].
Qed.

Lemma octave_loop_ok_bound {G : Type} `{PRNG G} octaves persistence lacunarity scale
    seed x y (l : list Z) :
  (0 <= persistence)%Q ->
  Forall (fun i => 0 <= i < octaves) l ->
  forall acc (g : G) v g',
    foldM (octave_step (make_amplitudes_config octaves persistence lacunarity)
                       scale seed x y) acc l g = (Ok v, g') ->
    (acc - fold_right (fun i s => persistence ^ i + s) 0 l <= v
     <= acc + fold_right (fun i s => persistence ^ i + s) 0 l)%Q.
Proof.
  intros Hp Hl. induction l as [| i l IH]; intros acc g v g' Hrun; simpl in Hrun.
  - apply ret_ok_inv in Hrun. destruct Hrun as [-> _]. simpl. split; lra.
  - inversion Hl as [| ? ? Hi Hrest]; subst.
    apply bind_ok_inv in Hrun. destruct Hrun as (acc1 & g1 & Hstep & Hrun).
    destruct (octave_step_ok_inv _ _ _ _ _ _ _ _ _ _ _ _ Hi Hstep)
      as (o & Ho & ->).
    specialize (IH Hrest _ _ _ _ Hrun).
    pose proof (Qpower_0_le persistence i Hp) as Hamp.
    assert (H1 : (0 <= (1 - o) * persistence ^ i)%Q)
      by (apply Qmult_le_0_compat; lra).
    assert (H2 : (0 <= (1 + o) * persistence ^ i)%Q)
      by (apply Qmult_le_0_compat; lra).
    simpl. split; lra.
Qed.



Example amplitude_sum_world : (amplitude_sum 4 (1 # 100) == 1010101 # 1000000)%Q.
Proof. reflexivity. Qed.

(** ** Cells that share a seed *)

Lemma local_seed_shift_seed seed ix iy :
  local_seed (seed + 1000) ix iy = local_seed seed ix (iy + 1).
Proof. unfold local_seed. lia. Qed.

Lemma local_seed_shift_cell seed ix iy :
  local_seed seed (ix + 1) (iy - 100) = local_seed seed ix iy.
Proof. unfold local_seed. lia. Qed.

Lemma gradient_same_outcome {G : Type} `{PRNG G} ix iy x y seed ix' iy' x' y' seed'
    (g1 g2 : G) :
  local_seed seed ix iy = local_seed seed' ix' iy' ->
  (x - inject_Z ix == x' - inject_Z ix')%Q ->
  (y - inject_Z iy == y' - inject_Z iy')%Q ->
  same_outcome (gradient ix iy x y seed g1) (gradient ix' iy' x' y' seed' g2).
Proof.
  intros Hseed Hx Hy. rewrite !gradient_unfold, Hseed.
  destruct (rng_randint 0 7 _) as [[k | e |] g']; try (split; reflexivity).
  destruct (py_index gradients k) as [[gx gy] | e |]; try (split; reflexivity).
  split; [reflexivity |]. simpl. now rewrite Hx, Hy.
Qed.

(** X6. The seed that [gradient] installs makes different cells and seeds
    coincide: raising the seed by 1000 selects for every cell the vector of
    the cell one row further, and the cell one column further and 100 rows
    back has the vector of the cell itself.  The calls agree on the outcome
    and on the generator state they leave, from any two generator states. *)
Theorem gradient_seed_aliasing {G : Type} `{PRNG G}
    (ix iy : Z) (x y : Q) (seed : Z) (g1 g2 : G) :
  same_outcome (gradient ix iy x y (seed + 1000) g1)
               (gradient ix (iy + 1) x (y + 1) seed g2) /\
  same_outcome (gradient (ix + 1) (iy - 100) x y seed g1)
               (gradient ix iy (x - 1) (y + 100) seed g2).
Proof.
  split; apply gradient_same_outcome.
  - apply local_seed_shift_seed.
  - reflexivity.
  - rewrite inject_Z_plus. change (inject_Z 1) with 1%Q. ring.
  - apply local_seed_shift_cell.
  - rewrite inject_Z_plus. change (inject_Z 1) with 1%Q. ring.
  - unfold Z.sub. rewrite inject_Z_plus. change (inject_Z (- (100))) with (-100 # 1)%Q.
    ring.
Qed.

(** ** The field of a run that returns *)

Lemma np_zeros_ok_inv height width a :
  np_zeros height width = Ok a -> 0 <= height /\ 0 <= width /\ a = zeros height width.
Proof.
  unfold np_zeros.
  destruct (Z.ltb_spec height 0); [discriminate |].
  destruct (Z.ltb_spec width 0); [discriminate |].
  intros E. inversion E. repeat split; assumption.
Qed.

Lemma np_setitem_ok_shape height width a y x v a' :
  shape height width a -> np_setitem a y x v = Ok a' -> shape height width a'.
Proof.
  intros [Hlen Hrows] Hset. unfold np_setitem in Hset.
  destruct (norm_index (length a) y) as [j | e |]; try discriminate.
  destruct (a !! j) as [row |] eqn:Hrow; try discriminate.
  destruct (norm_index (length row) x) as [i | e |]; try discriminate.
  inversion Hset; subst a'. split.
  - now rewrite length_insert.
  - apply Forall_insert; [assumption |].
    cbv beta. rewrite length_insert. rewrite Forall_forall in Hrows. apply Hrows.
    eapply list_elem_of_lookup_2. eassumption.
Qed.

Lemma raw_noise_map_ok_shape {G : Type} `{PRNG G} width height octaves persistence
    lacunarity scale seed (g : G) raw g' :
  raw_noise_map width height octaves persistence lacunarity scale seed g = (Ok raw, g') ->
  0 <= width /\ 0 <= height /\ shape height width raw.
Proof.
  unfold raw_noise_map. intros Hrun.
  apply bind_ok_inv in Hrun. destruct Hrun as (a0 & g0 & Hzeros & Hrun).
  apply lift_ok_inv in Hzeros. destruct Hzeros as [Hzeros ->].
  apply np_zeros_ok_inv in Hzeros. destruct Hzeros as (Hh & Hw & ->).
  split; [assumption |]. split; [assumption |].
  revert Hrun. apply foldM_ok_inv; [| apply shape_zeros].
  intros y a g1 a1 g2 _ Ha. unfold row_step.
  apply foldM_ok_inv; [| exact Ha].
  intros x b g3 b1 g4 _ Hb Hstep. unfold pixel_step in Hstep.
  apply bind_ok_inv in Hstep. destruct Hstep as (v & g5 & _ & Hset).
  apply lift_ok_inv in Hset. destruct Hset as [Hset _].
  eapply np_setitem_ok_shape; eassumption.
Qed.

Lemma shape_map height width (f : Q -> Q) a :
  shape height width a -> shape height width (map (map f) a).
Proof.
  intros [Hlen Hrows]. split.
  - now rewrite length_map.
  - apply List.Forall_forall. intros row Hin.
    apply in_map_iff in Hin. destruct Hin as (row0 & <- & Hin0).
    rewrite length_map. rewrite List.Forall_forall in Hrows. now apply Hrows.
Qed.

Lemma shape_no_cells height width a :
  shape height width a -> height <= 0 \/ width <= 0 -> concat a = [].
Proof.
  intros [Hlen Hrows] Hdim.
  destruct (Z_le_gt_dec height 0) as [Hh | Hh].
  - destruct a; [reflexivity |]. simpl in Hlen. lia.
  - assert (Hw : width <= 0) by lia. clear Hlen.
    induction Hrows as [| row a Hrow _ IH]; [reflexivity |].
    simpl. rewrite IH. destruct row; [reflexivity |]. simpl in Hrow. lia.
Qed.

Lemma shape_cells height width a :
  shape height width a -> 0 < height -> 0 < width -> concat a <> [].
Proof.
  intros [Hlen Hrows] Hh Hw E.
  destruct a as [| row a]; [simpl in Hlen; lia |].
  inversion Hrows as [| ? ? Hrow _]; subst.
  destruct row; [simpl in Hrow; lia |]. discriminate.
Qed.

(** The normalisation on a field with cells: its three possible results. *)
Lemma normalize_cases {G : Type} a (g : G) :
  concat a <> [] ->
  exists mn mx,
    (In mn (concat a) /\ forall v, In v (concat a) -> (mn <= v)%Q) /\
    (In mx (concat a) /\ forall v, In v (concat a) -> (v <= mx)%Q) /\
    (((0 < mx - mn)%Q /\
      normalize a g = (Ok (map (map (fun v => ((v - mn) / (mx - mn))%Q)) a), g)) \/
     ((mx - mn == 0)%Q /\
      normalize a g = (Ok (map (map (fun _ => 1 # 2)) a), g))).
Proof.
  intros Hne.
  destruct (np_min_spec a Hne) as (mn & Hmin & Hmn_in & Hmn_le).
  destruct (np_max_spec a Hne) as (mx & Hmax & Hmx_in & Hmx_ge).
  exists mn, mx. split; [now split |]. split; [now split |].
  rewrite (normalize_unfold a mn mx g Hmin Hmax).
  pose proof (Hmn_le mx Hmx_in) as Hle.
  destruct (Qlt_le_dec 0 (mx - mn)) as [Hpos | Hnonpos].
  - left. now split.
  - right. split; [lra | reflexivity].
Qed.

Lemma normalize_ok_inv {G : Type} a (g : G) out g' :
  normalize a g = (Ok out, g') -> concat a <> [] /\ g' = g.
Proof.
  unfold normalize, bind, lift, np_min, np_max.
  destruct (concat a) as [| v vs]; [discriminate |].
  destruct (Qlt_le_dec 0 _); unfold ret; intros E; inversion E;
    (split; [discriminate | reflexivity]).
Qed.

Lemma normalize_ok_unit {G : Type} a (g : G) out g' :
  normalize a g = (Ok out, g') -> forall c, In c (concat out) -> (0 <= c <= 1)%Q.
Proof.
  intros Hrun.
  destruct (normalize_ok_inv _ _ _ _ Hrun) as [Hne ->].
  destruct (normalize_cases a g Hne)
    as (mn & mx & [_ Hmn] & [_ Hmx] & [[Hpos E] | [Hflat E]]);
    rewrite E in Hrun; inversion Hrun; subst out; intros c Hin;
    rewrite <- concat_map in Hin; apply in_map_iff in Hin;
    destruct Hin as (v & <- & Hv).
  - apply rescaled_in_unit; auto.
  - split; discriminate.
Qed.

Lemma normalize_ok_shape {G : Type} height width a (g : G) out g' :
  normalize a g = (Ok out, g') -> shape height width a -> shape height width out.
Proof.
  intros Hrun Hs.
  destruct (normalize_ok_inv _ _ _ _ Hrun) as [Hne ->].
  destruct (normalize_cases a g Hne) as (mn & mx & _ & _ & [[_ E] | [_ E]]);
    rewrite E in Hrun; inversion Hrun; subst out; now apply shape_map.
Qed.

(** The raw field of a run that returns is within the amplitude sum. *)
Lemma amplitude_sum_nonneg octaves persistence :
  (0 <= persistence)%Q -> (0 <= amplitude_sum octaves persistence)%Q.
Proof.
  intros Hp. unfold amplitude_sum.
  induction (range octaves) as [| i l IH]; simpl; [discriminate |].
  pose proof (Qpower_0_le persistence i Hp). lra.
Qed.

Lemma amplitude_le_sum octaves persistence i :
  (0 <= persistence)%Q -> 0 <= i < octaves ->
  (persistence ^ i <= amplitude_sum octaves persistence)%Q.
Proof.
  intros Hp Hi. apply In_range in Hi. unfold amplitude_sum.
  induction (range octaves) as [| j l IH]; simpl; [contradiction |].
  assert (Htail : (0 <= fold_right (fun i acc => persistence ^ i + acc) 0 l)%Q).
  { clear IH Hi. induction l as [| k l IHl]; simpl; [discriminate |].
    pose proof (Qpower_0_le persistence k Hp). lra. }
  pose proof (Qpower_0_le persistence j Hp).
  destruct Hi as [-> | Hi]; [lra |]. specialize (IH Hi). lra.
Qed.

Lemma pixel_ok_bound {G : Type} `{PRNG G} octaves persistence lacunarity scale seed
    x y (g : G) v g' :
  (0 <= persistence)%Q ->
  pixel_value (make_amplitudes_config octaves persistence lacunarity)
              octaves scale seed x y g = (Ok v, g') ->
  (- amplitude_sum octaves persistence <= v <= amplitude_sum octaves persistence)%Q.
Proof.
  intros Hp Hrun. unfold pixel_value in Hrun.
  pose proof (octave_loop_ok_bound octaves persistence lacunarity scale seed x y
                (range octaves) Hp) as Hbound.
  specialize (Hbound ltac:(apply List.Forall_forall; intros i Hi;
                           now apply In_range in Hi) _ _ _ _ Hrun).
  unfold amplitude_sum. lra.
Qed.

Lemma np_setitem_ok_cells (P : Q -> Prop) a y x v a' :
  Forall (Forall P) a -> P v -> np_setitem a y x v = Ok a' -> Forall (Forall P) a'.
Proof.
  intros Ha Hv Hset. unfold np_setitem in Hset.
  destruct (norm_index (length a) y) as [j | e |]; try discriminate.
  destruct (a !! j) as [row |] eqn:Hrow; try discriminate.
  destruct (norm_index (length row) x) as [i | e |]; try discriminate.
  inversion Hset; subst a'.
  apply Forall_insert; [assumption |].
  apply Forall_insert; [| assumption].
  rewrite Forall_forall in Ha. apply Ha.
  eapply list_elem_of_lookup_2. eassumption.
Qed.

Lemma raw_noise_map_ok_bounded {G : Type} `{PRNG G} width height octaves persistence
    lacunarity scale seed (g : G) raw g' :
  (0 <= persistence)%Q ->
  raw_noise_map width height octaves persistence lacunarity scale seed g = (Ok raw, g') ->
  forall v, In v (concat raw) ->
    (- amplitude_sum octaves persistence <= v <= amplitude_sum octaves persistence)%Q.
Proof.
  intros Hp Hrun.
  pose proof (amplitude_sum_nonneg octaves persistence Hp) as Hsum.
  assert (Hcells : Forall (Forall (fun v =>
            (- amplitude_sum octaves persistence <= v
             <= amplitude_sum octaves persistence)%Q)) raw).
  { unfold raw_noise_map in Hrun.
    apply bind_ok_inv in Hrun. destruct Hrun as (a0 & g0 & Hzeros & Hrun).
    apply lift_ok_inv in Hzeros. destruct Hzeros as [Hzeros ->].
    apply np_zeros_ok_inv in Hzeros. destruct Hzeros as (_ & _ & ->).
    revert Hrun. apply foldM_ok_inv.
    - intros y a g1 a1 g2 _ Ha. unfold row_step.
      apply foldM_ok_inv; [| exact Ha].
      intros x b g3 b1 g4 _ Hb Hstep. unfold pixel_step in Hstep.
      apply bind_ok_inv in Hstep. destruct Hstep as (v & g5 & Hpix & Hset).
      apply lift_ok_inv in Hset. destruct Hset as [Hset _].
      eapply np_setitem_ok_cells; [exact Hb | | exact Hset].
      eapply pixel_ok_bound; eassumption.
    - unfold zeros. apply Forall_forall. intros row Hrow.
      apply elem_of_replicate in Hrow. destruct Hrow as [-> _].
      apply Forall_forall. intros c Hc.
      apply elem_of_replicate in Hc. destruct Hc as [-> _]. split; lra. }
  intros v Hin. apply in_concat in Hin. destruct Hin as (row & Hrow & Hv).
  rewrite Forall_forall in Hcells. specialize (Hcells row).
  rewrite Forall_forall in Hcells. apply Hcells; now apply list_elem_of_In.
Qed.

Lemma amplitudes_spread_in_range octaves persistence (raw : ndarray) :
  amplitudes_in_range octaves persistence ->
  (forall v, In v (concat raw) ->
     (- amplitude_sum octaves persistence <= v <= amplitude_sum octaves persistence)%Q) ->
  spread_in_range raw.
Proof.
  intros [Hp Hsum] Hcells v w Hv Hw.
  pose proof (Hcells v Hv). pose proof (Hcells w Hw).
  pose proof float_margin_twice. lra.
Qed.

(** X7. For amplitudes that are not negative and whose sum is within the
    float margin, whatever the generator does, a field that
    [generate_perlin_noise] returns is well formed: the sizes were positive,
    the field has [height] rows of [width] cells, and every cell lies in
    [[0, 1]]; it is the normalisation of a raw field whose spread does not
    overflow float64. *)
Theorem generate_perlin_noise_well_formed {G : Type} `{PRNG G}
    (width height octaves : Z) (persistence lacunarity scale : Q) (seed : Z)
    (g : G) (noise_map : ndarray) (g' : G) :
  amplitudes_in_range octaves persistence ->
  generate_perlin_noise width height octaves persistence lacunarity scale seed g
  = (Ok noise_map, g') ->
  0 < width /\ 0 < height /\ shape height width noise_map /\
  (forall c, In c (concat noise_map) -> (0 <= c <= 1)%Q) /\
  exists raw g1,
    raw_noise_map width height octaves persistence lacunarity scale seed g
    = (Ok raw, g1) /\
    spread_in_range raw /\
    normalize raw g1 = (Ok noise_map, g').
Proof.
  intros Hamp Hrun. unfold generate_perlin_noise in Hrun.
  apply bind_ok_inv in Hrun. destruct Hrun as (raw & g1 & Hraw & Hnorm).
  destruct (raw_noise_map_ok_shape _ _ _ _ _ _ _ _ _ _ Hraw) as (Hw & Hh & Hs).
  destruct (normalize_ok_inv _ _ _ _ Hnorm) as [Hne _].
  assert (Hpos : 0 < height /\ 0 < width).
  { destruct (Z_le_gt_dec height 0) as [Hh0 | Hh0];
      [exfalso; apply Hne; eapply shape_no_cells; eauto |].
    destruct (Z_le_gt_dec width 0) as [Hw0 | Hw0];
      [exfalso; apply Hne; eapply shape_no_cells; eauto |]. lia. }
  split; [tauto |]. split; [tauto |]. split; [| split].
  - eapply normalize_ok_shape; eassumption.
  - eapply normalize_ok_unit; eassumption.
  - exists raw, g1. split; [exact Hraw |]. split; [| exact Hnorm].
    apply (amplitudes_spread_in_range octaves persistence); [exact Hamp |].
    eapply raw_noise_map_ok_bounded; [apply Hamp | exact Hraw].
Qed.

Section FieldReturns.

Context {G : Type} `{PRNG G} `{!PRNGLaws G}.


Lemma generate_perlin_noise_returns width height octaves persistence lacunarity
    scale seed (g : G) :
  0 < width -> 0 < height -> ~ (scale == 0)%Q ->
  field_draws width height octaves lacunarity scale seed ->
  exists noise_map g',
    generate_perlin_noise width height octaves persistence lacunarity scale seed g
    = (Ok noise_map, g').
Proof.
  intros Hw Hh Hscale Hdraws.
  destruct (raw_noise_map_returns width height octaves persistence lacunarity scale
              seed Hscale g ltac:(lia) ltac:(lia) Hdraws) as (g' & Hraw).
  pose proof (shape_cells _ _ _
                (shape_raw_val width height octaves persistence lacunarity scale seed)
                Hh Hw) as Hne.
  destruct (normalize_cases _ g' Hne) as (mn & mx & _ & _ & [[_ E] | [_ E]]);
    eexists; exists g'; unfold generate_perlin_noise;
    rewrite (bind_ok _ _ _ _ _ Hraw); exact E.
Qed.

End FieldReturns.

Lemma amplitudes_powers_in_range width height octaves persistence lacunarity scale :
  amplitudes_in_range octaves persistence ->
  samples_in_range width height octaves lacunarity scale ->
  powers_in_range octaves persistence lacunarity.
Proof.
  intros [Hp Hsum] [Hfreq _] i Hi.
  pose proof float_margin_overflow. split.
  - specialize (Hfreq i Hi). lra.
  - pose proof (amplitude_le_sum octaves persistence i Hp Hi).
    pose proof (Qpower_0_le persistence i Hp).
    rewrite Qabs_pos by assumption. lra.
Qed.

(** X8. On positive sizes and a non-zero scale, for parameters whose
    amplitudes, frequencies and sample coordinates are within the float
    margin, [generate_perlin_noise] returns (provided the draws return): no
    power overflows, the raw field has a spread that does not overflow, and
    the result is a field of [height] rows of [width] cells, all in
    [[0, 1]]. *)
Theorem generate_perlin_noise_total {G : Type} `{PRNG G} `{!PRNGLaws G}
    (width height octaves : Z) (persistence lacunarity scale : Q) (seed : Z) (g : G) :
  0 < width -> 0 < height -> ~ (scale == 0)%Q ->
  amplitudes_in_range octaves persistence ->
  samples_in_range width height octaves lacunarity scale ->
  field_draws width height octaves lacunarity scale seed ->
  powers_in_range octaves persistence lacunarity /\
  exists raw g1 noise_map g',
    raw_noise_map width height octaves persistence lacunarity scale seed g
    = (Ok raw, g1) /\
    spread_in_range raw /\
    generate_perlin_noise width height octaves persistence lacunarity scale seed g
    = (Ok noise_map, g') /\
    shape height width noise_map /\
    forall c, In c (concat noise_map) -> (0 <= c <= 1)%Q.
Proof.
  intros Hw Hh Hscale Hamp Hsamples Hdraws.
  split; [eapply amplitudes_powers_in_range; eassumption |].
  destruct (generate_perlin_noise_returns width height octaves persistence lacunarity
              scale seed g Hw Hh Hscale Hdraws) as (nm & g' & Hrun).
  pose proof Hrun as Hrun'. unfold generate_perlin_noise in Hrun'.
  apply bind_ok_inv in Hrun'. destruct Hrun' as (raw & g1 & Hraw & Hnorm).
  destruct (raw_noise_map_ok_shape _ _ _ _ _ _ _ _ _ _ Hraw) as (_ & _ & Hs).
  exists raw, g1, nm, g'.
  split; [exact Hraw |]. split; [| split; [exact Hrun | split]].
  - apply (amplitudes_spread_in_range octaves persistence); [exact Hamp |].
    eapply raw_noise_map_ok_bounded; [apply Hamp | exact Hraw].
  - eapply normalize_ok_shape; eassumption.
  - eapply normalize_ok_unit; eassumption.
Qed.


Lemma mt19937_amplitudes_in_range : amplitudes_in_range 2 (1 # 2).
Proof. split; vm_compute; discriminate. Qed.

Lemma mt19937_samples_in_range : samples_in_range 2 1 2 2 (3 # 2).
Proof.
  split.
  - intros i Hi. assert (Hc : i = 0 \/ i = 1) by lia.
    destruct Hc as [-> | ->]; vm_compute; discriminate.
  - intros c i Hc Hi.
    assert (Hcc : c = 0 \/ c = 1) by lia. assert (Hic : i = 0 \/ i = 1) by lia.
    destruct Hcc as [-> | ->], Hic as [-> | ->]; split; vm_compute; discriminate.
Qed.

Lemma generate_perlin_noise_well_formed_witness :
  amplitudes_in_range 2 (1 # 2) /\
  exists noise_map g',
    generate_perlin_noise 2 1 2 (1 # 2) 2 (3 # 2) 5 (MT19937.seed 0)
    = (Ok noise_map, g') /\
    0 < 2 /\ 0 < 1 /\ shape 1 2 noise_map /\
    (forall c, In c (concat noise_map) -> (0 <= c <= 1)%Q) /\
    exists raw g1,
      raw_noise_map 2 1 2 (1 # 2) 2 (3 # 2) 5 (MT19937.seed 0) = (Ok raw, g1) /\
      spread_in_range raw /\
      normalize raw g1 = (Ok noise_map, g').
Proof.
  split; [exact mt19937_amplitudes_in_range |].
  destruct (generate_perlin_noise_returns 2 1 2 (1 # 2) 2 (3 # 2) 5 (MT19937.seed 0)
              ltac:(lia) ltac:(lia) ltac:(discriminate) mt19937_field_draws)
    as (nm & g' & Hrun).
  exists nm, g'. split; [exact Hrun |].
  exact (generate_perlin_noise_well_formed 2 1 2 (1 # 2) 2 (3 # 2) 5 (MT19937.seed 0)
           nm g' mt19937_amplitudes_in_range Hrun).
Defined.

Lemma generate_perlin_noise_total_witness :
  0 < 2 /\ 0 < 1 /\ ~ ((3 # 2) == 0)%Q /\
  amplitudes_in_range 2 (1 # 2) /\ samples_in_range 2 1 2 2 (3 # 2) /\
  field_draws (G := MT19937.state) 2 1 2 2 (3 # 2) 5 /\
  powers_in_range 2 (1 # 2) 2 /\
  exists raw g1 noise_map g',
    raw_noise_map 2 1 2 (1 # 2) 2 (3 # 2) 5 (MT19937.seed 0) = (Ok raw, g1) /\
    spread_in_range raw /\
    generate_perlin_noise 2 1 2 (1 # 2) 2 (3 # 2) 5 (MT19937.seed 0)
    = (Ok noise_map, g') /\
    shape 1 2 noise_map /\
    forall c, In c (concat noise_map) -> (0 <= c <= 1)%Q.
Proof.
  assert (Hs : ~ ((3 # 2) == 0)%Q) by discriminate.
  split; [lia |]. split; [lia |]. split; [exact Hs |].
  split; [exact mt19937_amplitudes_in_range |].
  split; [exact mt19937_samples_in_range |].
  split; [exact mt19937_field_draws |].
  exact (generate_perlin_noise_total 2 1 2 (1 # 2) 2 (3 # 2) 5 (MT19937.seed 0)
           ltac:(lia) ltac:(lia) Hs mt19937_amplitudes_in_range
           mt19937_samples_in_range mt19937_field_draws).
Defined.


(** ** From noise to terrain *)

Lemma classify_cell_monotone v w :
  (v <= w)%Q -> classify_cell v <= classify_cell w.
Proof.
  intros Hvw. unfold classify_cell.
  destruct (Qlt_le_dec v water_threshold) as [Hv1 | Hv1],
           (Qlt_le_dec w water_threshold) as [Hw1 | Hw1];
    try destruct (Qlt_le_dec v grass_threshold) as [Hv2 | Hv2];
    try destruct (Qlt_le_dec w grass_threshold) as [Hw2 | Hw2];
    try lia; exfalso; lra.
Qed.

Lemma rescale_monotone mn mx v w :
  (0 < mx - mn)%Q -> (v <= w)%Q ->
  ((v - mn) / (mx - mn) <= (w - mn) / (mx - mn))%Q.
Proof.
  intros Hpos Hvw. unfold Qdiv.
  apply Qmult_le_compat_r; [lra |].
  apply Qinv_le_0_compat. lra.
Qed.

(** X10. On a raw field whose spread does not overflow float64,
    normalisation and classification keep the order of the noise: a cell
    whose raw value is not above that of another cell gets a normalised value
    and a terrain code that are not above those of the other cell. *)
Theorem terrain_monotone_in_noise {G : Type} (raw : ndarray) (g : G)
    (noise_map : ndarray) (g' : G) (y1 x1 y2 x2 : Z) (v1 v2 : Q) :
  spread_in_range raw ->
  normalize raw g = (Ok noise_map, g') ->
  cell raw y1 x1 = Some v1 -> cell raw y2 x2 = Some v2 -> (v1 <= v2)%Q ->
  exists n1 n2,
    cell noise_map y1 x1 = Some n1 /\ cell noise_map y2 x2 = Some n2 /\
    (n1 <= n2)%Q /\
    cell (classify noise_map) y1 x1 = Some (classify_cell n1) /\
    cell (classify noise_map) y2 x2 = Some (classify_cell n2) /\
    classify_cell n1 <= classify_cell n2.
Proof.
  intros _ Hrun Hc1 Hc2 Hle.
  destruct (normalize_ok_inv _ _ _ _ Hrun) as [Hne ->].
  destruct (normalize_cases raw g Hne) as (mn & mx & _ & _ & [[Hpos E] | [_ E]]);
    rewrite E in Hrun; inversion Hrun; subst noise_map.
  - exists ((v1 - mn) / (mx - mn))%Q, ((v2 - mn) / (mx - mn))%Q.
    rewrite !classify_map, !cell_map, Hc1, Hc2.
    pose proof (rescale_monotone mn mx v1 v2 Hpos Hle) as Hn.
    split; [reflexivity |]. split; [reflexivity |]. split; [exact Hn |].
    split; [reflexivity |]. split; [reflexivity |].
    now apply classify_cell_monotone.
  - exists (1 # 2), (1 # 2).
    rewrite !classify_map, !cell_map, Hc1, Hc2.
    split; [reflexivity |]. split; [reflexivity |]. split; [apply Qle_refl |].
    split; [reflexivity |]. split; [reflexivity |]. lia.
Qed.

Lemma terrain_monotone_in_noise_witness :
  spread_in_range [[1 # 1; 3 # 1]; [2 # 1; -1 # 1]] /\
  normalize [[1 # 1; 3 # 1]; [2 # 1; -1 # 1]] (MT19937.seed 0)
  = (Ok [[2 # 4; 4 # 4]; [3 # 4; 0 # 4]], MT19937.seed 0) /\
  cell [[1 # 1; 3 # 1]; [2 # 1; -1 # 1]] 1 1 = Some (-1 # 1) /\
  cell [[1 # 1; 3 # 1]; [2 # 1; -1 # 1]] 0 1 = Some (3 # 1) /\
  (-1 # 1 <= 3 # 1)%Q /\
  exists n1 n2,
    cell [[2 # 4; 4 # 4]; [3 # 4; 0 # 4]] 1 1 = Some n1 /\
    cell [[2 # 4; 4 # 4]; [3 # 4; 0 # 4]] 0 1 = Some n2 /\
    (n1 <= n2)%Q /\
    cell (classify [[2 # 4; 4 # 4]; [3 # 4; 0 # 4]]) 1 1 = Some (classify_cell n1) /\
    cell (classify [[2 # 4; 4 # 4]; [3 # 4; 0 # 4]]) 0 1 = Some (classify_cell n2) /\
    classify_cell n1 <= classify_cell n2.
Proof.
  assert (Hrun : normalize [[1 # 1; 3 # 1]; [2 # 1; -1 # 1]] (MT19937.seed 0)
                 = (Ok [[2 # 4; 4 # 4]; [3 # 4; 0 # 4]], MT19937.seed 0))
    by reflexivity.
  assert (Hle : (-1 # 1 <= 3 # 1)%Q) by discriminate.
  split; [exact spread_in_range_example |].
  split; [exact Hrun |]. split; [reflexivity |]. split; [reflexivity |].
  split; [exact Hle |].
  exact (terrain_monotone_in_noise _ _ _ _ 1 1 0 1 (-1 # 1) (3 # 1)
           spread_in_range_example Hrun eq_refl eq_refl Hle).
Defined.

Lemma normalize_ok_terrain {G : Type} raw (g : G) noise_map g' :
  normalize raw g = (Ok noise_map, g') ->
  (forall code, In code (concat (classify noise_map)) -> code = 1) \/
  (In 0 (concat (classify noise_map)) /\ In 2 (concat (classify noise_map))).
Proof.
  intros Hrun.
  destruct (normalize_ok_inv _ _ _ _ Hrun) as [Hne ->].
  destruct (normalize_cases raw g Hne)
    as (mn & mx & [Hmn _] & [Hmx _] & [[Hpos E] | [_ E]]);
    rewrite E in Hrun; inversion Hrun; subst noise_map;
    rewrite classify_map, <- !concat_map.
  - right. split.
    + assert (E0 : classify_cell ((mn - mn) / (mx - mn)) = 0).
      { apply classify_cell_water.
        assert (Ez : ((mn - mn) / (mx - mn) == 0)%Q) by (unfold Qdiv; ring).
        rewrite Ez. reflexivity. }
      rewrite <- E0.
      apply in_map, (in_map (fun v => ((v - mn) / (mx - mn))%Q)), Hmn.
    + assert (E2 : classify_cell ((mx - mn) / (mx - mn)) = 2).
      { apply classify_cell_mountain.
        assert (Eo : ((mx - mn) / (mx - mn) == 1)%Q).
        { apply Qmult_inv_r. intros Ed. rewrite Ed in Hpos.
          exact (Qlt_irrefl _ Hpos). }
        rewrite Eo. discriminate. }
      rewrite <- E2.
      apply in_map, (in_map (fun v => ((v - mn) / (mx - mn))%Q)), Hmx.
  - left. intros code Hin.
    apply in_map_iff in Hin. destruct Hin as (c & <- & Hc).
    apply in_map_iff in Hc. destruct Hc as (v & <- & _). reflexivity.
Qed.

Lemma generate_world_ok_inv {G : Type} `{PRNG G} seed sz (g : G) w g' :
  generate_world seed sz g = (Ok w, g') ->
  exists raw g1 noise_map,
    raw_noise_map sz sz 4 (1 # 100) 2 30 seed g = (Ok raw, g1) /\
    normalize raw g1 = (Ok noise_map, g') /\
    generate_perlin_noise sz sz 4 (1 # 100) 2 30 seed g = (Ok noise_map, g') /\
    w = mkWorld sz (classify noise_map).
Proof.
  unfold generate_world. intros Hrun.
  apply bind_ok_inv in Hrun. destruct Hrun as (nm & g1 & Hgen & Hrun).
  apply bind_ok_inv in Hrun. destruct Hrun as (row & g2 & Hidx & Hrun).
  apply lift_ok_inv in Hidx. destruct Hidx as [_ ->].
  apply ret_ok_inv in Hrun. destruct Hrun as [-> ->].
  pose proof Hgen as Hgen'. unfold generate_perlin_noise in Hgen'.
  apply bind_ok_inv in Hgen'. destruct Hgen' as (raw & g0 & Hraw & Hnorm).
  now exists raw, g0, nm.
Qed.

(** X11. Whatever the generator does, a world that [generate_world]
    returns is either all grass (every tile 1), or it has at least one water
    tile (0) and at least one mountain tile (2). *)
Theorem world_grass_or_water_and_mountain {G : Type} `{PRNG G}
    (seed sz : Z) (g : G) (w : world) (g' : G) :
  generate_world seed sz g = (Ok w, g') ->
  (forall code, In code (concat (tiles w)) -> code = 1) \/
  (In 0 (concat (tiles w)) /\ In 2 (concat (tiles w))).
Proof.
  intros Hrun.
  destruct (generate_world_ok_inv _ _ _ _ _ Hrun)
    as (raw & g1 & nm & _ & Hnorm & _ & ->).
  simpl. eapply normalize_ok_terrain. eassumption.
Qed.

(** X12. Whatever the generator does, a world that [generate_world]
    returns echoes a positive [size] and has [size] rows of [size] tiles, each
    of them 0, 1 or 2. *)
Theorem generate_world_well_formed {G : Type} `{PRNG G}
    (seed sz : Z) (g : G) (w : world) (g' : G) :
  generate_world seed sz g = (Ok w, g') ->
  0 < sz /\ size w = sz /\
  length (tiles w) = Z.to_nat sz /\
  Forall (fun row => length row = Z.to_nat sz) (tiles w) /\
  forall code, In code (concat (tiles w)) -> code = 0 \/ code = 1 \/ code = 2.
Proof.
  intros Hrun.
  destruct (generate_world_ok_inv _ _ _ _ _ Hrun)
    as (raw & g1 & nm & Hraw & Hnorm & Hgen & ->).
  destruct (raw_noise_map_ok_shape _ _ _ _ _ _ _ _ _ _ Hraw) as (Hw & Hh & Hs).
  destruct (normalize_ok_inv _ _ _ _ Hnorm) as [Hne _].
  pose proof (normalize_ok_shape _ _ _ _ _ _ Hnorm Hs) as [Hlen Hrows].
  assert (Hpos : 0 < sz).
  { destruct (Z_le_gt_dec sz 0) as [Hz | Hz]; [| lia].
    exfalso. apply Hne. eapply shape_no_cells; eauto. }
  simpl. rewrite classify_map.
  split; [exact Hpos |]. split; [reflexivity |].
  split; [now rewrite length_map |]. split.
  - apply List.Forall_forall. intros row Hin.
    apply in_map_iff in Hin. destruct Hin as (row0 & <- & Hin0).
    rewrite length_map. rewrite List.Forall_forall in Hrows. now apply Hrows.
  - intros code Hin. rewrite <- concat_map in Hin.
    apply in_map_iff in Hin. destruct Hin as (c & <- & _).
    unfold classify_cell.
    destruct (Qlt_le_dec c water_threshold); [tauto |].
    destruct (Qlt_le_dec c grass_threshold); tauto.
Qed.

(** ** The route *)

Lemma generate_perlin_noise_no_cells {G : Type} `{PRNG G} width height octaves
    persistence lacunarity scale seed (g : G) :
  width <= 0 \/ height <= 0 ->
  generate_perlin_noise width height octaves persistence lacunarity scale seed g
  = (Raise ValueError, g).
Proof.
  intros Hd. unfold generate_perlin_noise.
  destruct (Z_lt_le_dec width 0) as [Hwn | Hw].
  { apply bind_raise, raw_noise_map_negative. now left. }
  destruct (Z_lt_le_dec height 0) as [Hhn | Hh].
  { apply bind_raise, raw_noise_map_negative. now right. }
  assert (Hz : width = 0 \/ height = 0) by lia.
  rewrite (bind_ok _ _ _ _ _
             (raw_noise_map_no_cells width height octaves persistence lacunarity
                scale seed g Hw Hh Hz)).
  unfold normalize, bind, lift, np_min.
  now rewrite concat_zeros_no_cells.
Qed.

(** X13. [generate_world] with a [size] that is zero or negative raises
    [ValueError] (the route has no check of its own), without drawing from the
    generator. *)
Theorem generate_world_nonpositive_size {G : Type} `{PRNG G}
    (seed sz : Z) (g : G) :
  sz <= 0 -> generate_world seed sz g = (Raise ValueError, g).
Proof.
  intros Hsz. unfold generate_world.
  apply bind_raise, generate_perlin_noise_no_cells. now left.
Qed.

Lemma generate_world_nonpositive_size_witness :
  0 <= 0 /\
  generate_world 7 0 (MT19937.seed 0) = (Raise ValueError, MT19937.seed 0).
Proof.
  split; [lia |].
  exact (generate_world_nonpositive_size 7 0 (MT19937.seed 0) ltac:(lia)).
Defined.

Lemma field_draws_single {G : Type} `{PRNG G} octaves lacunarity scale seed :
  octave_draws seed 0 0 -> field_draws 1 1 octaves lacunarity scale seed.
Proof.
  intros Hdraws x y Hx Hy.
  assert (x = 0) as -> by lia. assert (y = 0) as -> by lia.
  now apply pixel_draws_origin.
Qed.

Lemma generate_world_returns {G : Type} `{PRNG G} `{!PRNGLaws G} seed sz (g : G) :
  0 < sz -> field_draws sz sz 4 2 30 seed ->
  exists noise_map g',
    generate_perlin_noise sz sz 4 (1 # 100) 2 30 seed g = (Ok noise_map, g') /\
    generate_world seed sz g = (Ok (mkWorld sz (classify noise_map)), g').
Proof.
  intros Hsz Hdraws.
  destruct (generate_perlin_noise_returns sz sz 4 (1 # 100) 2 30 seed g Hsz Hsz
              ltac:(discriminate) Hdraws) as (nm & g' & Hgen).
  exists nm, g'. split; [exact Hgen |].
  unfold generate_world. rewrite (bind_ok _ _ _ _ _ Hgen).
  pose proof Hgen as Hgen'. unfold generate_perlin_noise in Hgen'.
  apply bind_ok_inv in Hgen'. destruct Hgen' as (raw & g1 & Hraw & Hnorm).
  destruct (raw_noise_map_ok_shape _ _ _ _ _ _ _ _ _ _ Hraw) as (_ & _ & Hs).
  pose proof (normalize_ok_shape _ _ _ _ _ _ Hnorm Hs) as [Hlen _].
  destruct (lookup_lt_is_Some_2 (classify nm) (Z.to_nat 0)) as [row Hrow].
  { rewrite classify_map, length_map. lia. }
  unfold bind, lift. now rewrite (py_index_in_range _ 0 row ltac:(lia) Hrow).
Qed.

(** X14. On a positive [size], [generate_world] returns (provided the
    draws return): the world echoes [size], and its tiles are the
    classification of the field that [generate_perlin_noise] returns for
    4 octaves, persistence 0.01, lacunarity 2 and scale 30. *)
Theorem generate_world_total {G : Type} `{PRNG G} `{!PRNGLaws G}
    (seed sz : Z) (g : G) :
  0 < sz -> field_draws sz sz 4 2 30 seed ->
  exists w noise_map g',
    generate_world seed sz g = (Ok w, g') /\
    size w = sz /\
    generate_perlin_noise sz sz 4 (1 # 100) 2 30 seed g = (Ok noise_map, g') /\
    tiles w = classify noise_map.
Proof.
  intros Hsz Hdraws.
  destruct (generate_world_returns seed sz g Hsz Hdraws) as (nm & g' & Hgen & Hrun).
  exists (mkWorld sz (classify nm)), nm, g'.
  split; [exact Hrun |]. split; [reflexivity |]. now split.
Qed.

Lemma generate_world_total_witness :
  0 < 1 /\ field_draws (G := MT19937.state) 1 1 4 2 30 5 /\
  exists w noise_map g',
    generate_world 5 1 (MT19937.seed 0) = (Ok w, g') /\
    size w = 1 /\
    generate_perlin_noise 1 1 4 (1 # 100) 2 30 5 (MT19937.seed 0)
    = (Ok noise_map, g') /\
    tiles w = classify noise_map.
Proof.
  pose proof (field_draws_single (G := MT19937.state) 4 2 30 5 mt19937_cell_draws)
    as Hdraws.
  split; [lia |]. split; [exact Hdraws |].
  exact (generate_world_total 5 1 (MT19937.seed 0) ltac:(lia) Hdraws).
Defined.

Lemma world_grass_or_water_and_mountain_witness :
  exists w g',
    generate_world 5 1 (MT19937.seed 0) = (Ok w, g') /\
    ((forall code, In code (concat (tiles w)) -> code = 1) \/
     (In 0 (concat (tiles w)) /\ In 2 (concat (tiles w)))).
Proof.
  destruct (generate_world_returns 5 1 (MT19937.seed 0) ltac:(lia)
              (field_draws_single (G := MT19937.state) 4 2 30 5 mt19937_cell_draws))
    as (nm & g' & _ & Hrun).
  exists (mkWorld 1 (classify nm)), g'. split; [exact Hrun |].
  exact (world_grass_or_water_and_mountain 5 1 (MT19937.seed 0) _ g' Hrun).
Defined.

Lemma generate_world_well_formed_witness :
  exists w g',
    generate_world 5 1 (MT19937.seed 0) = (Ok w, g') /\
    0 < 1 /\ size w = 1 /\
    length (tiles w) = Z.to_nat 1 /\
    Forall (fun row => length row = Z.to_nat 1) (tiles w) /\
    forall code, In code (concat (tiles w)) -> code = 0 \/ code = 1 \/ code = 2.
Proof.
  destruct (generate_world_returns 5 1 (MT19937.seed 0) ltac:(lia)
              (field_draws_single (G := MT19937.state) 4 2 30 5 mt19937_cell_draws))
    as (nm & g' & _ & Hrun).
  exists (mkWorld 1 (classify nm)), g'. split; [exact Hrun |].
  exact (generate_world_well_formed 5 1 (MT19937.seed 0) _ g' Hrun).
Defined.

(** ** The generator after a run *)

Section Resets.

Context {G : Type} `{PRNG G}.






End Resets.


